(** * go-config: aggregation engine, placeholder expansion, properties
      grammar and fallback cache — a shallow embedding and its properties.

    Go strings are byte strings ([string]); Go maps are finite maps
    ([gmap]); [fmt.Errorf] values keep their format literal, their
    arguments and the error wrapped by [%w]. *)

From Stdlib Require Import ZArith Ascii String.
From stdpp Require Import gmap strings list fin_maps pretty.

Local Open Scope Z_scope.
Set Warnings "-register-all,-clear-no-such-hyp".

(* ===================================================================== *)
(** ** The part of Go's [strings] package the sources use               *)
(* ===================================================================== *)

Module Strings.

(** Case mapping of the ASCII letters, other bytes kept: this is
    [strings.ToLower] and [strings.ToUpper] on ASCII text (format tags,
    boolean literals, environment variable names).  Every literal the
    sources compare a lower-cased string with is ASCII, and no letter
    outside ASCII folds onto one of them; on other text Go maps the
    non-ASCII letters as well. *)
Definition lowerByte (c : ascii) : ascii :=
  let n := N_of_ascii c in
  if ((65 <=? n) && (n <=? 90))%N then ascii_of_N (n + 32) else c.

Definition upperByte (c : ascii) : ascii :=
  let n := N_of_ascii c in
  if ((97 <=? n) && (n <=? 122))%N then ascii_of_N (n - 32) else c.

Fixpoint mapBytes (f : ascii → ascii) (s : string) : string :=
  match s with
  | EmptyString => EmptyString
  | String c s' => String (f c) (mapBytes f s')
  end.

Definition ToLower : string → string := mapBytes lowerByte.
Definition ToUpper : string → string := mapBytes upperByte.

(** [unicode.IsSpace] on the ASCII range: tab, LF, VT, FF, CR, space
    (Go also counts U+0085, U+00A0 and the Unicode space separators). *)
Definition isSpace (c : ascii) : bool :=
  let n := N_of_ascii c in
  (((9 <=? n) && (n <=? 13)) || (n =? 32))%N.

Fixpoint TrimLeftFunc (f : ascii → bool) (s : string) : string :=
  match s with
  | EmptyString => EmptyString
  | String c s' => if f c then TrimLeftFunc f s' else s
  end.

Fixpoint TrimRightFunc (f : ascii → bool) (s : string) : string :=
  match s with
  | EmptyString => EmptyString
  | String c s' =>
      match TrimRightFunc f s' with
      | EmptyString => if f c then EmptyString else String c EmptyString
      | r => String c r
      end
  end.

Definition TrimSpace (s : string) : string :=
  TrimRightFunc isSpace (TrimLeftFunc isSpace s).

(** [strings.TrimRight(s, cutset)] for a one-byte cutset. *)
Definition TrimRight (s : string) (cut : ascii) : string :=
  TrimRightFunc (Ascii.eqb cut) s.

Fixpoint HasPrefix (s p : string) : bool :=
  match p, s with
  | EmptyString, _ => true
  | String a p', String b s' => Ascii.eqb a b && HasPrefix s' p'
  | String _ _, EmptyString => false
  end.

Fixpoint HasSuffix (s p : string) : bool :=
  (String.eqb s p) ||
  match s with
  | EmptyString => false
  | String _ s' => HasSuffix s' p
  end.

(** [strings.Index]: [None] stands for Go's [-1]. *)
Fixpoint Index (s sub : string) : option nat :=
  if HasPrefix s sub then Some 0%nat
  else match s with
       | EmptyString => None
       | String _ s' => S <$> Index s' sub
       end.

Definition Contains (s sub : string) : bool := bool_decide (is_Some (Index s sub)).

Fixpoint ContainsAny (s chars : string) : bool :=
  match s with
  | EmptyString => false
  | String c s' =>
      bool_decide (is_Some (Index chars (String c EmptyString))) || ContainsAny s' chars
  end.

(** Slices [s[:n]] and [s[n:]]. *)
Fixpoint take (n : nat) (s : string) : string :=
  match n, s with
  | S n', String c s' => String c (take n' s')
  | _, _ => EmptyString
  end.

Fixpoint drop (n : nat) (s : string) : string :=
  match n, s with
  | S n', String _ s' => drop n' s'
  | _, _ => s
  end.

(** [strings.Split(s, sep)] for a one-byte separator. *)
Fixpoint Split (s : string) (sep : ascii) : list string :=
  match s with
  | EmptyString => [EmptyString]
  | String c s' =>
      if Ascii.eqb c sep then EmptyString :: Split s' sep
      else match Split s' sep with
           | [] => [String c EmptyString]
           | p :: ps => String c p :: ps
           end
  end.

End Strings.
Import Strings.

(* ===================================================================== *)
(** ** Errors                                                            *)
(* ===================================================================== *)

(** An error is either produced by a collaborator outside this package
    (file system, network, a format library) or built by [fmt.Errorf]:
    the format literal, the arguments of its [%q]/[%s]/[%d] verbs in order,
    and the error passed to [%w], if any. *)
Inductive error :=
| External (msg : string)
| Errorf (format : string) (args : list string) (wrapped : option error).

Definition Unwrap (e : error) : option error :=
  match e with
  | External _ => None
  | Errorf _ _ w => w
  end.

Inductive result (A : Type) :=
| Ok (a : A)
| Err (e : error).
Arguments Ok {A} a.
Arguments Err {A} e.

(** Early return on error: [x ← r; k] is Go's
    [x, err := r; if err != nil { return err }; k]. *)
Global Instance result_bind : MBind result := λ A B k r,
  match r with
  | Ok a => k a
  | Err e => Err e
  end.

(* ===================================================================== *)
(** ** Generic trees                                                     *)
(* ===================================================================== *)

Definition bytes := list Byte.byte.

(** The dynamic values ([any]) a decoded tree holds.  A [map[any]any] is
    kept as its string-keyed entries together with the entries under
    keys of another type, which the package only ever skips.  A float is
    its IEEE-754 binary64 bit pattern, a duration its nanosecond count. *)
Inductive value :=
| VNil
| VString (s : string)
| VInt (i : Z)
| VFloat (bits : Z)
| VBool (b : bool)
| VDuration (ns : Z)
| VMap (m : gmap string value)
| VAnyMap (strs : gmap string value) (others : gmap Z value)
| VList (l : list value).

Abbreviation tree := (gmap string value).

(** merge.go / part_000: [toStringMap]. *)
Definition toStringMap (v : value) : option tree :=
  match v with
  | VMap m => Some m
  | VAnyMap strs _ => Some strs
  | _ => None
  end.

(* ===================================================================== *)
(** ** merge.go: the default deep-merge strategy                         *)
(* ===================================================================== *)

(** One iteration of [for k, v := range src] in [Merge]; [rec m1 v] is
    the recursive call [Merge(m1, m2)] for [m2] the map view of [v]. *)
Definition mergeEntry (rec : tree → value → tree)
    (k : string) (v : value) (dst : tree) : tree :=
  match dst !! k with
  | Some existing =>
      match toStringMap existing, toStringMap v with
      | Some m1, Some _ => <[k := VMap (rec m1 v)]> dst
      | _, _ => <[k := v]> dst
      end
  | None => <[k := v]> dst
  end.

(** [mergeInto dst v] is [Merge(dst, m)] for [m] the map view of [v]
    (recursion goes through the values of the source tree).  The default
    strategy has no failing path, so the [error] result is added by
    [Merge] below. *)
Fixpoint mergeInto (dst : tree) (v : value) {struct v} : tree :=
  match v with
  | VMap src => map_fold (mergeEntry mergeInto) dst src
  | VAnyMap src _ => map_fold (mergeEntry mergeInto) dst src
  | _ => dst
  end.

(** What [Merge] leaves under a key that [src] binds to [v], given what
    [dst] held there. *)
Definition mergedAt (old : option value) (v : value) : value :=
  match old with
  | Some existing =>
      match toStringMap existing, toStringMap v with
      | Some m1, Some _ => VMap (mergeInto m1 v)
      | _, _ => v
      end
  | None => v
  end.

(** [DefaultMergeStrategy.Merge].  A nil [dst] reads like the empty map
    and is replaced by a fresh empty one: both are [∅] here. *)
Definition Merge (dst src : tree) : result tree :=
  Ok (mergeInto dst (VMap src)).

(* ===================================================================== *)
(** ** part_000: path lookup                                             *)
(* ===================================================================== *)

(** The loop of [getByPath] over [parts], from the current value [cur];
    [None] is Go's [(nil, false)]. *)
Fixpoint getByPathFrom (cur : value) (parts : list string) : option value :=
  match parts with
  | [] => None
  | p :: rest =>
      match toStringMap cur with
      | None => None
      | Some m =>
          match m !! p with
          | None => None
          | Some v =>
              match rest with
              | [] => Some v
              | _ => getByPathFrom v rest
              end
          end
      end
  end.

Definition getByPath (data : option tree) (path : string) : option value :=
  match data with
  | None => None
  | Some d => getByPathFrom (VMap d) (Split path ".")
  end.

(* ===================================================================== *)
(** ** variable_expander.go, part_000: placeholder expansion             *)
(* ===================================================================== *)

Definition lookupFn := string → option string.

(** [strings.SplitN(s, sep, 2)]. *)
Definition SplitN2 (s sep : string) : list string :=
  match Index s sep with
  | Some i => [take i s; drop (i + String.length sep) s]
  | None => [s]
  end.

(** The expansion functions return, next to their result, the names they
    passed to [lookup], in call order. *)
Definition traced (A : Type) : Type := list string * result A.

Definition expandSinglePlaceholder (rawExpr : string) (lookup : lookupFn)
    : traced string :=
  let rawExpr := TrimSpace rawExpr in
  if decide (rawExpr = "") then
    ([], Err (Errorf "empty placeholder expression" [] None))
  else
    let '(mainPart, defValue) :=
      if Contains rawExpr "|" then
        match SplitN2 rawExpr "|" with
        | [p0; p1] => (TrimSpace p0, TrimSpace p1)
        | _ => (rawExpr, "")
        end
      else (rawExpr, "") in
    match Index mainPart "." with
    | None | Some O =>
        ([], Err (Errorf "invalid placeholder (missing dot): %q" [rawExpr] None))
    | Some dot =>
        let source := TrimSpace (take dot mainPart) in
        let key := TrimSpace (drop (dot + 1) mainPart) in
        if decide (source = "" ∨ key = "") then
          ([], Err (Errorf "invalid placeholder: %q" [rawExpr] None))
        else
          let envName :=
            if decide (source = "env") then key
            else ToUpper source +:+ "_" +:+ ToUpper key in
          match lookup envName with
          | None =>
              ([envName], Ok (if decide (defValue ≠ "") then defValue else ""))
          | Some val => ([envName], Ok val)
          end
    end.

(** The [for] loop of [expandAllPlaceholders]: [rest] is [input[start:]]
    and [res] the builder's content.  Every round consumes at least the
    two bytes of a placeholder opening, so [fuel] above the length of
    [rest] is never used up. *)
Fixpoint expandLoop (fuel : nat) (rest res : string) (lookup : lookupFn)
    : traced string :=
  match fuel with
  | O => ([], Err (External "unreachable"))
  | S fuel' =>
      match Index rest "${" with
      | None => ([], Ok (res +:+ rest))
      | Some idx =>
          let res := res +:+ take idx rest in
          let after := drop (idx + 2) rest in
          match Index after "}" with
          | None => ([], Err (Errorf "placeholder not closed: %q" [rest] None))
          | Some e =>
              let rawExpr := take e after in
              match expandSinglePlaceholder rawExpr lookup with
              | (q, Err err) => (q, Err err)
              | (q, Ok expanded) =>
                  let '(q', r) :=
                    expandLoop fuel' (drop (e + 1) after) (res +:+ expanded) lookup in
                  (q ++ q', r)
              end
          end
      end
  end.

Definition expandAllPlaceholders (input : string) (lookup : lookupFn)
    : traced string :=
  expandLoop (S (String.length input)) input "" lookup.

(** [DefaultVariableExpander.Expand]. *)
Definition Expand (input : string) (lookup : lookupFn) : traced string :=
  if bool_decide (input = "") || negb (Contains input "${") then ([], Ok input)
  else expandAllPlaceholders input lookup.

(** The errors of the placeholder grammar. *)
Definition placeholderError (e : error) : Prop :=
  ∃ format args, e = Errorf format args None ∧
    format ∈ ["empty placeholder expression";
              "invalid placeholder (missing dot): %q";
              "invalid placeholder: %q";
              "placeholder not closed: %q"].

(* ===================================================================== *)
(** ** config.go: interfaces and the aggregator                          *)
(* ===================================================================== *)

Global Instance result_ret : MRet result := λ A a, Ok a.

Record Metadata := { Format : string; Source : string }.

(** part_003: the [Decoder] interface. *)
Record Decoder := {
  Decode : bytes → result tree;
  DecoderFormat : string;
}.

(** merge.go: the [MergeStrategy] interface.  A strategy returns a map
    or an error. *)
Record MergeStrategy := { StrategyMerge : tree → tree → result tree }.

Definition DefaultMergeStrategy : MergeStrategy := {| StrategyMerge := Merge |}.

(** expander.go: the [VariableExpander] interface. *)
Record VariableExpander := {
  ExpanderExpand : string → lookupFn → result string;
}.

Definition DefaultVariableExpander : VariableExpander :=
  {| ExpanderExpand input lookup := (Expand input lookup).2 |}.

(** source.go: the [Source] interface ([Source] already names the field
    of [Metadata]).  [SourceLoad] is what the call [src.Load()] returns
    during one aggregation: bytes, metadata and the error, [None] for
    [nil]. *)
Record ConfigSource := { SourceLoad : bytes * Metadata * option error }.

(** One element of a [[]any] in [expandMapInPlace]. *)
Definition expandItem (rec : value → result tree)
    (exp : VariableExpander) (lookup : lookupFn) (item : value) : result value :=
  match item with
  | VString iv => out ← ExpanderExpand exp iv lookup; Ok (VString out)
  | VMap _ | VAnyMap _ _ => sub ← rec item; Ok (VMap sub)
  | _ => Ok item
  end.

(** One iteration of [for k, v := range m] in [expandMapInPlace]; [acc]
    is the map so far, or the error an earlier iteration returned. *)
Definition expandEntry (rec : value → result tree)
    (exp : VariableExpander) (lookup : lookupFn)
    (k : string) (v : value) (acc : result tree) : result tree :=
  m ← acc;
  match v with
  | VString vv => out ← ExpanderExpand exp vv lookup; Ok (<[k := VString out]> m)
  | VMap _ | VAnyMap _ _ => sub ← rec v; Ok (<[k := VMap sub]> m)
  | VList vv =>
      items ← mapM (expandItem rec exp lookup) vv; Ok (<[k := VList items]> m)
  | _ => Ok m
  end.

(** [expandMapInPlace] on the map view of [v].  Go ranges over a map in
    no fixed order; the fold visits the keys in the map's own order,
    which only decides which of several failing leaves is reported. *)
Fixpoint expandMapValue (exp : VariableExpander) (lookup : lookupFn)
    (v : value) {struct v} : result tree :=
  match v with
  | VMap m => map_fold (expandEntry (expandMapValue exp lookup) exp lookup) (Ok m) m
  | VAnyMap m _ => map_fold (expandEntry (expandMapValue exp lookup) exp lookup) (Ok m) m
  | _ => Ok ∅
  end.

Definition expandMapInPlace (m : tree) (exp : VariableExpander)
    (lookup : lookupFn) : result tree :=
  expandMapValue exp lookup (VMap m).

Record DefaultConfig := {
  decoders : gmap string Decoder;
  merge : MergeStrategy;
  expander : option VariableExpander;
  envPrefix : string;
  envExpand : bool;
  data : option tree;
}.

Definition setData (c : DefaultConfig) (d : tree) : DefaultConfig :=
  {| decoders := decoders c; merge := merge c; expander := expander c;
     envPrefix := envPrefix c; envExpand := envExpand c; data := Some d |}.

Definition Option := DefaultConfig → DefaultConfig.

(** [WithDecoder]; [None] is a nil decoder. *)
Definition WithDecoder (dec : option Decoder) : Option := λ c,
  match dec with
  | None => c
  | Some d =>
      let format := ToLower (DecoderFormat d) in
      if decide (format ≠ "") then
        {| decoders := <[format := d]> (decoders c); merge := merge c;
           expander := expander c; envPrefix := envPrefix c;
           envExpand := envExpand c; data := data c |}
      else c
  end.

Definition NewDefaultConfig (opts : list Option) : DefaultConfig :=
  foldl (λ c opt, opt c)
    {| decoders := ∅; merge := DefaultMergeStrategy; expander := None;
       envPrefix := ""; envExpand := false; data := Some ∅ |}
    opts.

(** The body of the loop of [Load] for one non-nil source: load, pick
    the decoder, decode, merge into [tmp]. *)
Definition loadSource (c : DefaultConfig) (tmp : tree) (src : ConfigSource)
    : result tree :=
  let '(raw, meta, err) := SourceLoad src in
  match err with
  | Some e => Err (Errorf "load source %q failed: %w" [Source meta] (Some e))
  | None =>
      let format := ToLower (Format meta) in
      match decoders c !! format with
      | None => Err (Errorf "no decoder registered for format: %s" [format] None)
      | Some dec =>
          match Decode dec raw with
          | Err e => Err (Errorf "decode source %q failed: %w" [Source meta] (Some e))
          | Ok m =>
              match StrategyMerge (merge c) tmp m with
              | Err e =>
                  Err (Errorf "merge source %q failed: %w" [Source meta] (Some e))
              | Ok tmp' => Ok tmp'
              end
          end
      end
  end.

(** The loop of [Load]; a nil source ([None]) is skipped. *)
Fixpoint loadSources (c : DefaultConfig) (tmp : tree)
    (sources : list (option ConfigSource)) : result tree :=
  match sources with
  | [] => Ok tmp
  | None :: rest => loadSources c tmp rest
  | Some src :: rest => tmp' ← loadSource c tmp src; loadSources c tmp' rest
  end.

(** The placeholder step of [Load]; [env] is [os.LookupEnv]. *)
Definition expandStep (c : DefaultConfig) (env : lookupFn) (tmp : tree)
    : result tree :=
  match envExpand c, expander c with
  | true, Some exp =>
      let lookup name :=
        env (if decide (envPrefix c ≠ "") then envPrefix c +:+ name else name) in
      match expandMapInPlace tmp exp lookup with
      | Err e => Err (Errorf "expand env vars failed: %w" [] (Some e))
      | Ok tmp' => Ok tmp'
      end
  | _, _ => Ok tmp
  end.

(** [DefaultConfig.Load]: the configuration after the call and the
    returned error ([None] for nil). *)
Definition Load (c : DefaultConfig) (env : lookupFn)
    (sources : list (option ConfigSource)) : DefaultConfig * option error :=
  match sources with
  | [] => (c, None)
  | _ =>
      match tmp ← loadSources c ∅ sources; expandStep c env tmp with
      | Err e => (c, Some e)
      | Ok tmp => (setData c tmp, None)
      end
  end.

(** [DefaultConfig.Get]: [None] is [(nil, false)]. *)
Definition Get (c : DefaultConfig) (path : string) : option value :=
  if decide (path = "") then VMap <$> data c
  else getByPath (data c) path.

(** [DefaultConfig.GetBool]. *)
Definition GetBool (c : DefaultConfig) (path : string) : bool * bool :=
  match Get c path with
  | None | Some VNil => (false, false)
  | Some (VBool vv) => (vv, true)
  | Some (VString vv) =>
      let l := ToLower vv in
      if bool_decide (l ∈ ["true"; "1"; "yes"; "y"; "on"]) then (true, true)
      else if bool_decide (l ∈ ["false"; "0"; "no"; "n"; "off"]) then (false, true)
      else (false, false)
  | Some _ => (false, false)
  end.

(** part_000: [normalizeFormat], applied by the built-in sources to the
    format their options receive. *)
Definition normalizeFormat (format : string) : string :=
  let f := ToLower (TrimSpace format) in
  if decide (f = "yml") then "yaml" else f.

(* ===================================================================== *)
(** ** strconv.ParseInt, as the sources call it (explicit base)          *)
(* ===================================================================== *)

Module Strconv.

(** The digit a byte stands for: ['0'..'9'], then letters of either
    case from ten upwards ([lower(c)] is [c | 0x20]). *)
Definition digitVal (c : ascii) : option Z :=
  let n := Z.of_N (N_of_ascii c) in
  if (48 <=? n) && (n <=? 57) then Some (n - 48)
  else
    let l := Z.lor n 32 in
    if (97 <=? l) && (l <=? 122) then Some (l - 97 + 10) else None.

Fixpoint parseDigits (base acc : Z) (s : string) : option Z :=
  match s with
  | EmptyString => Some acc
  | String c s' =>
      match digitVal c with
      | Some d => if d <? base then parseDigits base (acc * base + d) s' else None
      | None => None
      end
  end.

(** [None] for a syntax error or a value above [2^bitSize - 1]. *)
Definition ParseUint (s : string) (base bitSize : Z) : option Z :=
  if decide (s = "") then None
  else
    match parseDigits base 0 s with
    | Some v => if v <=? 2 ^ bitSize - 1 then Some v else None
    | None => None
    end.

(** An optional sign, then [ParseUint], then the signed range check. *)
Definition ParseInt (s : string) (base bitSize : Z) : option Z :=
  match s with
  | EmptyString => None
  | String c s' =>
      let '(neg, digits) :=
        if Ascii.eqb c "+" then (false, s')
        else if Ascii.eqb c "-" then (true, s')
        else (false, s) in
      match ParseUint digits base bitSize with
      | None => None
      | Some un =>
          let cutoff := 2 ^ (bitSize - 1) in
          if negb neg && (cutoff <=? un) then None
          else if neg && (cutoff <? un) then None
          else Some (if neg then - un else un)
      end
  end.

End Strconv.
Import Strconv.

(* ===================================================================== *)
(** ** part_000: the default environment value parser                    *)
(* ===================================================================== *)

Section env_value_parser.

(** [strconv.ParseFloat(s, 64)] and [time.ParseDuration] of the Go
    library; [None] is a non-nil error. *)
Variable ParseFloat : string → option Z.
Variable ParseDuration : string → option Z.

(** [int(i)] is the identity on a 64-bit platform. *)
Definition defaultEnvValueParser (raw : string) : value :=
  let s := TrimSpace raw in
  if decide (s = "") then VString s
  else
    let lower := ToLower s in
    if bool_decide (lower ∈ ["true"; "yes"; "y"; "on"]) then VBool true
    else if bool_decide (lower ∈ ["false"; "no"; "n"; "off"]) then VBool false
    else
      match ParseInt s 10 64 with
      | Some i => VInt i
      | None =>
          match (if ContainsAny s ".eE" then ParseFloat s else None) with
          | Some f => VFloat f
          | None =>
              match ParseDuration s with
              | Some d => VDuration d
              | None => VString s
              end
          end
      end.

End env_value_parser.

(* ===================================================================== *)
(** ** part_005: the properties grammar                                  *)
(* ===================================================================== *)

Module Properties.

(** The variables of the loop of [splitLogicalLines]. *)
Record lineState := {
  buf : string;
  continuation : bool;
  lines : list string;
}.

(** One physical line [r]. *)
Definition splitStep (st : lineState) (r : string) : lineState :=
  let line := TrimRight r "013" in
  let b :=
    if continuation st then buf st +:+ TrimLeftFunc isSpace line
    else TrimSpace line in
  if HasSuffix b "\" then
    {| buf := take (String.length b - 1) b; continuation := true;
       lines := lines st |}
  else
    {| buf := b; continuation := false; lines := lines st ++ [b] |}.

Definition splitLogicalLines (s : string) : list string :=
  let st := foldl splitStep {| buf := ""; continuation := false; lines := [] |}
              (Split s "010") in
  if continuation st then lines st ++ [buf st] else lines st.

(** A rune is its code point. *)
Definition rune := Z.

(** [[]rune(s)] for a string of ASCII bytes. *)
Definition runes (s : string) : list rune :=
  (λ c, Z.of_N (N_of_ascii c)) <$> list_ascii_of_string s.

Definition byteChar (n : Z) : ascii := ascii_of_N (Z.to_N n).

(** What [WriteRune] appends: a surrogate or a value outside Unicode
    is written as U+FFFD. *)
Definition writtenRune (r : rune) : rune :=
  if (r <? 0) || (1114111 <? r) || ((55296 <=? r) && (r <=? 57343))
  then 65533 else r.

(** UTF-8 encoding of one rune. *)
Definition encodeRune (r : rune) : list ascii :=
  let r := writtenRune r in
  if r <? 128 then [byteChar r]
  else if r <? 2048 then
    [byteChar (192 + Z.shiftr r 6); byteChar (128 + Z.land r 63)]
  else if r <? 65536 then
    [byteChar (224 + Z.shiftr r 12);
     byteChar (128 + Z.land (Z.shiftr r 6) 63);
     byteChar (128 + Z.land r 63)]
  else
    [byteChar (240 + Z.shiftr r 18);
     byteChar (128 + Z.land (Z.shiftr r 12) 63);
     byteChar (128 + Z.land (Z.shiftr r 6) 63);
     byteChar (128 + Z.land r 63)].

(** [string(rs)] for a rune slice [rs]. *)
Definition runeString (rs : list rune) : string :=
  string_of_list_ascii (rs ≫= encodeRune).

(** The loop of [unescape] over the runes from index [i] on; [out] is
    what the builder holds, rune by rune. *)
Fixpoint unescapeFrom (rs : list rune) (out : list rune) : result (list rune) :=
  match rs with
  | [] => Ok out
  | c :: rest =>
      if negb (c =? 92) then unescapeFrom rest (out ++ [writtenRune c])
      else
        match rest with
        | [] => Err (Errorf "invalid escape sequence at end of string" [] None)
        | c2 :: rest2 =>
            if c2 =? 116 then unescapeFrom rest2 (out ++ [9])
            else if c2 =? 110 then unescapeFrom rest2 (out ++ [10])
            else if c2 =? 114 then unescapeFrom rest2 (out ++ [13])
            else if c2 =? 92 then unescapeFrom rest2 (out ++ [92])
            else if c2 =? 117 then
              match rest2 with
              | h1 :: h2 :: h3 :: h4 :: rest3 =>
                  let hex := runeString [h1; h2; h3; h4] in
                  match ParseInt hex 16 32 with
                  | None => Err (Errorf "invalid unicode escape: %v" [hex] None)
                  | Some val => unescapeFrom rest3 (out ++ [writtenRune val])
                  end
              | _ => Err (Errorf "invalid unicode escape \uXXXX" [] None)
              end
            else unescapeFrom rest2 (out ++ [writtenRune c2])
        end
  end.

(** [unescape], on the runes of its argument; the result is the rune
    sequence of the returned string. *)
Definition unescape (rs : list rune) : result (list rune) :=
  unescapeFrom rs [].

End Properties.

(* ===================================================================== *)
(** ** http_source.go: the multi-namespace source and its cache          *)
(* ===================================================================== *)

Module Apollo.

(** [ApolloCache]: namespace to the bytes of its last successful fetch. *)
Abbreviation ApolloCache := (gmap string bytes).

Definition CacheSet (c : ApolloCache) (ns : string) (content : bytes)
    : ApolloCache := <[ns := content]> c.

Definition CacheGet (c : ApolloCache) (ns : string) : option bytes := c !! ns.

Section load.

(** [json.Unmarshal] into a [map[string]any] and [json.Marshal]. *)
Variable jsonUnmarshal : bytes → result tree.
Variable jsonMarshal : tree → result bytes.

(** The loop of [Load].  Each configured namespace comes with what
    [fetchNamespace] returns for it in this call.  The cache is
    shared state: it is returned whatever the outcome. *)
Fixpoint loadNamespaces (cache : ApolloCache) (final : tree)
    (nss : list (string * result bytes)) : ApolloCache * result tree :=
  match nss with
  | [] => (cache, Ok final)
  | (ns, fetched) :: rest =>
      let step :=
        match fetched with
        | Err err =>
            match CacheGet cache ns with
            | Some cached => (cache, Ok cached)
            | None =>
                (cache,
                 Err (Errorf "ApolloMultiSource: namespace %s load failed: %w"
                        [ns] (Some err)))
            end
        | Ok b => (CacheSet cache ns b, Ok b)
        end in
      match step with
      | (cache', Err e) => (cache', Err e)
      | (cache', Ok b) =>
          match jsonUnmarshal b with
          | Err e => (cache', Err e)
          | Ok data => loadNamespaces cache' (<[ns := VMap data]> final) rest
          end
      end
  end.

(** [ApolloMultiSource.Load]; [name] is the source's display name. *)
Definition ApolloMultiLoad (name : string) (cache : ApolloCache)
    (nss : list (string * result bytes))
    : ApolloCache * result (bytes * Metadata) :=
  match loadNamespaces cache ∅ nss with
  | (cache', Err e) => (cache', Err e)
  | (cache', Ok final) =>
      match jsonMarshal final with
      | Err e => (cache', Err e)
      | Ok out => (cache', Ok (out, {| Format := "json"; Source := name |}))
      end
  end.

End load.

End Apollo.

(* ===================================================================== *)
(** ** Vocabulary of the statements below                                *)
(* ===================================================================== *)

(** [e] was built by wrapping an error together with the display name
    [name] as its only argument. *)
Definition wrapsWithSource (e : error) (name : string) : Prop :=
  ∃ format cause, e = Errorf format [name] (Some cause).

(** [c] after the options [WithDecoder(d1), ..., WithDecoder(dn)]. *)
Definition registerAll (c : DefaultConfig) (decs : list Decoder) : DefaultConfig :=
  foldl (λ c opt, opt c) c ((λ d, WithDecoder (Some d)) <$> decs).

(** The configuration [NewDefaultConfig(WithDecoder(d1), ..., WithDecoder(dn))]. *)
Definition configWithDecoders (decs : list Decoder) : DefaultConfig :=
  NewDefaultConfig ((λ d, WithDecoder (Some d)) <$> decs).

(** A source whose [Load] succeeds with the given bytes and metadata. *)
Definition sourceOf (raw : bytes) (meta : Metadata) : ConfigSource :=
  {| SourceLoad := (raw, meta, None) |}.

(** How a failing [loadSource] reports. *)
Inductive sourceFailure (c : DefaultConfig) (src : ConfigSource) : error → Prop :=
| FailLoad raw meta cause :
    SourceLoad src = (raw, meta, Some cause) →
    sourceFailure c src
      (Errorf "load source %q failed: %w" [Source meta] (Some cause))
| FailNoDecoder raw meta :
    SourceLoad src = (raw, meta, None) →
    decoders c !! ToLower (Format meta) = None →
    sourceFailure c src
      (Errorf "no decoder registered for format: %s" [ToLower (Format meta)] None)
| FailDecode raw meta dec cause :
    SourceLoad src = (raw, meta, None) →
    decoders c !! ToLower (Format meta) = Some dec →
    Decode dec raw = Err cause →
    sourceFailure c src
      (Errorf "decode source %q failed: %w" [Source meta] (Some cause))
| FailMerge raw meta dec tmp m cause :
    SourceLoad src = (raw, meta, None) →
    decoders c !! ToLower (Format meta) = Some dec →
    Decode dec raw = Ok m →
    StrategyMerge (merge c) tmp m = Err cause →
    sourceFailure c src
      (Errorf "merge source %q failed: %w" [Source meta] (Some cause)).

(** [WithVariableExpander]; [None] is a nil expander. *)
Definition WithVariableExpander (exp : option VariableExpander) : Option := λ c,
  match exp with
  | None => c
  | Some _ =>
      {| decoders := decoders c; merge := merge c; expander := exp;
         envPrefix := envPrefix c; envExpand := envExpand c; data := data c |}
  end.

(** [DefaultConfig.EnableEnvExpand]. *)
Definition EnableEnvExpand (c : DefaultConfig) : DefaultConfig :=
  {| decoders := decoders c; merge := merge c; expander := expander c;
     envPrefix := envPrefix c; envExpand := true; data := data c |}.

(** Concrete configurations and sources the statements are run on. *)
Module Examples.

Definition noEnv : lookupFn := λ _, None.

(** A decoder registered as [tag] that yields the tree [t]. *)
Definition constDecoder (tag : string) (t : tree) : Decoder :=
  {| Decode _ := Ok t; DecoderFormat := tag |}.

Definition namedSource (format name : string) : ConfigSource :=
  sourceOf [] {| Format := format; Source := name |}.

(** A YAML-only configuration, and one with expansion switched on
    whose JSON decoder yields an unterminated placeholder. *)
Definition yamlConfig : DefaultConfig :=
  configWithDecoders [constDecoder "yaml" {[ "flag" := VString "1" ]}].

Definition expandingConfig : DefaultConfig :=
  EnableEnvExpand
    (NewDefaultConfig
       [WithDecoder (Some (constDecoder "json"
                             {[ "listen" := VString "0.0.0.0:${env.PORT" ]}));
        WithVariableExpander (Some DefaultVariableExpander)]).

End Examples.

(** The literals of the boolean step of [defaultEnvValueParser]. *)
Definition envTrueLiterals : list string := ["true"; "yes"; "y"; "on"].
Definition envFalseLiterals : list string := ["false"; "no"; "n"; "off"].

(** Stand-ins for the two library parsers, defined on the literals the
    statements are run on: [1.5] is [0x3FF8000000000000] and [500ms] is
    500,000,000 ns. *)
Definition sampleParseFloat (s : string) : option Z :=
  if decide (s = "1.5") then Some 4609434218613702656 else None.

Definition sampleParseDuration (s : string) : option Z :=
  if decide (s = "500ms") then Some 500000000 else None.

(** The payload of the last successful fetch of namespace [k] among
    [nss], if there is one. *)
Fixpoint lastFetched (k : string) (nss : list (string * result bytes))
    : option bytes :=
  match nss with
  | [] => None
  | (ns, fetched) :: rest =>
      match lastFetched k rest with
      | Some b => Some b
      | None =>
          match fetched with
          | Ok b => if decide (ns = k) then Some b else None
          | Err _ => None
          end
      end
  end.

(** A JSON decoder stand-in that accepts every payload as the empty
    object, and an encoder that always yields the same bytes. *)
Definition sampleUnmarshal (b : bytes) : result tree := Ok ∅.
Definition sampleMarshal (t : tree) : result bytes := Ok [].

(** The byte [c] does not occur in [s]. *)
Definition noByte (c : ascii) (s : string) : Prop :=
  Index s (String c EmptyString) = None.

(** The text between [${] and [}] of a placeholder with the given
    parts, and the name the claim says is looked up for them. *)
Definition placeholderBody (source key : string) (def : option string) : string :=
  source +:+ "." +:+ key +:+
  match def with
  | Some d => "|" +:+ d
  | None => ""
  end.

Definition lookupName (source key : string) : string :=
  if decide (source = "env") then key
  else ToUpper source +:+ "_" +:+ ToUpper key.

(** What a placeholder stands for: the looked-up value on a hit, else
    the default, else the empty string. *)
Definition placeholderValue (lookup : lookupFn) (source key : string)
    (def : option string) : string :=
  match lookup (lookupName source key) with
  | Some v => v
  | None =>
      match def with
      | Some d => d
      | None => ""
      end
  end.

(* ===================================================================== *)
(** ** part_000: format detection                                        *)
(* ===================================================================== *)

(** [filepath.Ext] with [/] as the path separator: the suffix from the
    last dot of the last path element, empty when that element has none. *)
Fixpoint Ext (path : string) : string :=
  match path with
  | EmptyString => EmptyString
  | String c rest =>
      match Ext rest with
      | EmptyString =>
          if Ascii.eqb c "." && negb (Contains rest "/") then path else EmptyString
      | e => e
      end
  end.

Definition detectFormatFromPath (path : string) : result string :=
  let ext := ToLower (TrimSpace (Ext path)) in
  if decide (ext = "") then
    Err (Errorf "FileSource: cannot detect format from path %q: missing file extension"
           [path] None)
  else if decide (ext = ".json") then Ok "json"
  else if decide (ext = ".yaml" ∨ ext = ".yml") then Ok "yaml"
  else if decide (ext = ".toml") then Ok "toml"
  else
    Err (Errorf "FileSource: unsupported file extension %q in path %q"
           [ext; path] None).

(** [None] is [("", false)]. *)
Definition detectFormatFromContentType (ct : string) : option string :=
  let ct := ToLower ct in
  let ct :=
    match Index ct ";" with
    | Some i => TrimSpace (take i ct)
    | None => ct
    end in
  if decide (ct = "application/json") then Some "json"
  else if decide (ct = "application/x-yaml" ∨ ct = "text/yaml" ∨ ct = "text/x-yaml")
  then Some "yaml"
  else if decide (ct = "application/toml" ∨ ct = "text/x-toml") then Some "toml"
  else None.

(* ===================================================================== *)
(** ** file_source.go: the file source                                   *)
(* ===================================================================== *)

(** [FileSource] without its file system: what reading the file yields
    is an argument of [FileSourceLoad]. *)
Record FileSource := {
  fsPath : string;
  fsFormat : string;
  fsName : string;
}.

Definition FileSourceOption := FileSource → FileSource.

Definition WithFileSourceFormat (format : string) : FileSourceOption := λ fs,
  if decide (format = "") then fs
  else {| fsPath := fsPath fs; fsFormat := normalizeFormat format;
          fsName := fsName fs |}.

Definition WithFileSourceName (name : string) : FileSourceOption := λ fs,
  if decide (TrimSpace name = "") then fs
  else {| fsPath := fsPath fs; fsFormat := fsFormat fs; fsName := name |}.

Definition NewFileSource (path : string) (opts : list FileSourceOption)
    : FileSource :=
  let source :=
    foldl (λ fs opt, opt fs)
      {| fsPath := TrimSpace path; fsFormat := ""; fsName := "" |} opts in
  if decide (fsName source = "") then
    {| fsPath := fsPath source; fsFormat := fsFormat source;
       fsName := fsPath source |}
  else source.

(** [FileSource.Load]; [readFile] is what [f.readFile()] returns. *)
Definition FileSourceLoad (f : FileSource) (readFile : result bytes)
    : result (bytes * Metadata) :=
  if decide (fsPath f = "") then Err (Errorf "FileSource: path is empty" [] None)
  else
    data ← readFile;
    format ←
      (if decide (fsFormat f = "") then detectFormatFromPath (fsPath f)
       else Ok (fsFormat f));
    Ok (data, {| Format := format; Source := fsName f |}).

(** The [Source] a file source is during one aggregation. *)
Definition fileConfigSource (f : FileSource) (readFile : result bytes)
    : ConfigSource :=
  match FileSourceLoad f readFile with
  | Ok (data, meta) => {| SourceLoad := (data, meta, None) |}
  | Err e => {| SourceLoad := ([], {| Format := ""; Source := "" |}, Some e) |}
  end.

(* ===================================================================== *)
(** ** part_000, env_source.go: the environment source                   *)
(* ===================================================================== *)

Definition defaultEnvKeyNormalizer (key : string) : string :=
  ToLower (TrimSpace key).

(** [None] is [ok = false]. *)
Definition splitEnvPair (kv : string) : option (string * string) :=
  match Index kv "=" with
  | None | Some O => None
  | Some idx => Some (take idx kv, drop (idx + 1) kv)
  end.

(** [strings.Split(s, sep)] for a non-empty separator: cut at the
    leftmost occurrence, go on after it.  Each round removes at least
    one byte, so the fuel of [SplitStr] is enough. *)
Fixpoint SplitStrFuel (fuel : nat) (s sep : string) : list string :=
  match fuel with
  | O => [s]
  | S fuel' =>
      match Index s sep with
      | None => [s]
      | Some m => take m s :: SplitStrFuel fuel' (drop (m + String.length sep) s) sep
      end
  end.

Definition SplitStr (s sep : string) : list string :=
  SplitStrFuel (S (String.length s)) s sep.

(** [strings.TrimPrefix]. *)
Definition TrimPrefix (s prefix : string) : string :=
  if HasPrefix s prefix then drop (String.length prefix) s else s.

(** The loop of [buildEnvPath] over the raw parts. *)
Fixpoint normalizeParts (normalizer : string → string) (rawParts : list string)
    : list string :=
  match rawParts with
  | [] => []
  | p :: rest =>
      let n := normalizer p in
      if decide (n = "") then normalizeParts normalizer rest
      else n :: normalizeParts normalizer rest
  end.

Definition buildEnvPath (key separator : string) (normalizer : string → string)
    : list string :=
  if decide (separator = "") then
    let normalized := normalizer key in
    if decide (normalized = "") then [] else [normalized]
  else normalizeParts normalizer (SplitStr key separator).

(** The loop of [insertNestedValue] from the map [cur] on, as seen from
    the map [cur] was obtained from.  [copied] tells that [cur] is the
    copy [toStringMap] makes of a [map[any]any]: what is stored in the
    copy itself is lost, while a [map[string]any] found in it is shared
    with the original and updated in place. *)
Fixpoint insertNestedFrom (copied : bool) (cur : tree) (path : list string)
    (v : value) : tree :=
  match path with
  | [] => cur
  | [p] => if copied then cur else <[p := v]> cur
  | p :: rest =>
      match cur !! p with
      | Some (VMap m) => <[p := VMap (insertNestedFrom false m rest v)]> cur
      | Some (VAnyMap strs others) =>
          <[p := VAnyMap (insertNestedFrom true strs rest v) others]> cur
      | _ =>
          if copied then cur
          else <[p := VMap (insertNestedFrom false ∅ rest v)]> cur
      end
  end.

(** [insertNestedValue]: the content of [root] after the call. *)
Definition insertNestedValue (root : tree) (path : list string) (v : value)
    : tree :=
  insertNestedFrom false root path v.

(** The fields of [EnvSource] that decide the tree it builds. *)
Record EnvSource := {
  esPrefix : string;
  esStripPrefix : bool;
  esSeparator : string;
  esName : string;
  esValueParser : string → value;
  esKeyNormalizer : string → string;
}.

(** One iteration of the loop of [EnvSource.Load]. *)
Definition envStep (es : EnvSource) (root : tree) (kv : string) : tree :=
  match splitEnvPair kv with
  | None => root
  | Some (key, val) =>
      if bool_decide (esPrefix es ≠ "") && negb (HasPrefix key (esPrefix es))
      then root
      else
        let key :=
          if bool_decide (esPrefix es ≠ "") && esStripPrefix es
          then TrimPrefix key (esPrefix es) else key in
        let key := TrimSpace key in
        if decide (key = "") then root
        else
          let path := buildEnvPath key (esSeparator es) (esKeyNormalizer es) in
          match path with
          | [] => root
          | _ => insertNestedValue root path (esValueParser es val)
          end
  end.

(** The map [EnvSource.Load] builds from the environment [envList]
    before it marshals it. *)
Definition envTree (es : EnvSource) (envList : list string) : tree :=
  foldl (envStep es) ∅ envList.

(** [EnvSource.Load]. *)
Definition EnvSourceLoad (jsonMarshal : tree → result bytes) (es : EnvSource)
    (envList : list string) : result (bytes * Metadata) :=
  match jsonMarshal (envTree es envList) with
  | Err e =>
      Err (Errorf "EnvSource: marshal env map to json failed: %w" [] (Some e))
  | Ok data => Ok (data, {| Format := "json"; Source := esName es |})
  end.

(** The options of a file source that bear on its metadata. *)
Definition fileMetaOption (opt : FileSourceOption) : Prop :=
  (∃ format, opt = WithFileSourceFormat format) ∨
  (∃ name, opt = WithFileSourceName name).

(** No [map[any]any] lies on [path] in [m], its last position apart. *)
Fixpoint pathPlain (m : tree) (path : list string) : Prop :=
  match path with
  | [] => True
  | p :: rest =>
      match m !! p with
      | Some (VMap m') => pathPlain m' rest
      | Some (VAnyMap _ _) => rest = []
      | _ => True
      end
  end.

(** [NewEnvSource] with prefix, prefix stripping and separator set, as
    in the package's documentation, over the sample library parsers. *)
Definition sampleEnvSource : EnvSource :=
  {| esPrefix := "MYAPP_"; esStripPrefix := true; esSeparator := "__";
     esName := "env";
     esValueParser := defaultEnvValueParser sampleParseFloat sampleParseDuration;
     esKeyNormalizer := defaultEnvKeyNormalizer |}.

(* ===================================================================== *)
(** ** part_005: splitting a logical line into key and value             *)
(* ===================================================================== *)

(** [strings.IndexFunc]; as for [isSpace], on the ASCII range. *)
Fixpoint IndexFunc (f : ascii → bool) (s : string) : option nat :=
  match s with
  | EmptyString => None
  | String c s' => if f c then Some 0%nat else S <$> IndexFunc f s'
  end.

(** The [case '=', ':'] of the byte loop of [splitKeyValue]. *)
Definition isKeySeparator (c : ascii) : bool :=
  Ascii.eqb c "=" || Ascii.eqb c ":".

Definition splitKeyValue (s : string) : string * string * bool :=
  match IndexFunc isKeySeparator s with
  | Some i => (TrimSpace (take i s), TrimSpace (drop (i + 1) s), true)
  | None =>
      match IndexFunc isSpace s with
      | Some idx => (TrimSpace (take idx s), TrimSpace (drop (idx + 1) s), true)
      | None => (s, "", true)
      end
  end.

(** [ParseProperties]: one logical line, then the loop over all of
    them.  Keys and values go through [unescape] as rune sequences; as
    for [runes], the text is taken to be ASCII. *)
Definition parseLine (props : gmap string string) (line : string)
    : result (gmap string string) :=
  let trim := TrimSpace line in
  if decide (trim = "") then Ok props
  else if HasPrefix trim "#" || HasPrefix trim "!" then Ok props
  else
    let '(key, val, ok) := splitKeyValue trim in
    if negb ok then Ok props
    else
      match Properties.unescape (Properties.runes key) with
      | Err err => Err (Errorf "invalid key %q: %w" [key] (Some err))
      | Ok uk =>
          match Properties.unescape (Properties.runes val) with
          | Err err =>
              Err (Errorf "invalid value for key %q: %w"
                     [Properties.runeString uk] (Some err))
          | Ok uv =>
              Ok (<[Properties.runeString uk := Properties.runeString uv]> props)
          end
      end.

Definition parseLines (props : gmap string string) (lines : list string)
    : result (gmap string string) :=
  foldl (λ acc line, m ← acc; parseLine m line) (Ok props) lines.

Definition ParseProperties (input : string) : result (gmap string string) :=
  parseLines ∅ (Properties.splitLogicalLines input).

(** Every byte of [s] is below 128. *)
Definition isASCII (s : string) : Prop :=
  Forall (λ c, (N_of_ascii c < 128)%N) (list_ascii_of_string s).

(* ===================================================================== *)
(** ** part_000: the flattened key list                                  *)
(* ===================================================================== *)

(** One iteration of [for k, v2 := range m] in [flattenKeys]; [rec] is
    the recursive call and [out] the slice so far. *)
Definition flattenEntry (rec : string → value → list string)
    (prefix k : string) (v2 : value) (out : list string) : list string :=
  let key := if decide (prefix ≠ "") then prefix +:+ "." +:+ k else k in
  match toStringMap v2 with
  | Some _ => out ++ rec key v2
  | None => out ++ [key]
  end.

(** [flattenKeys prefix v] is what the call appends to [*out].  Go
    ranges over a map in no fixed order; the fold visits the keys in the
    map's own order. *)
Fixpoint flattenKeys (prefix : string) (v : value) {struct v} : list string :=
  match v with
  | VMap m => map_fold (flattenEntry flattenKeys prefix) [] m
  | VAnyMap m _ => map_fold (flattenEntry flattenKeys prefix) [] m
  | _ => if decide (prefix ≠ "") then [prefix] else []
  end.

(** [DefaultConfig.Keys]; a nil [data] ranges over nothing. *)
Definition Keys (c : DefaultConfig) : list string :=
  match data c with
  | None => []
  | Some d => flattenKeys "" (VMap d)
  end.

(** The key [flattenKeys] builds for the entry [k] under [prefix]. *)
Definition joinKey (prefix k : string) : string :=
  if decide (prefix ≠ "") then prefix +:+ "." +:+ k else k.

(** Every key of every map of the value is non-empty and has no dot. *)
Inductive wellKeyed : value → Prop :=
| wellKeyed_map m :
    (∀ k v, m !! k = Some v → k ≠ "" ∧ noByte "." k) →
    (∀ k v, m !! k = Some v → wellKeyed v) →
    wellKeyed (VMap m)
| wellKeyed_anymap m others :
    (∀ k v, m !! k = Some v → k ≠ "" ∧ noByte "." k) →
    (∀ k v, m !! k = Some v → wellKeyed v) →
    wellKeyed (VAnyMap m others)
| wellKeyed_leaf v : toStringMap v = None → wellKeyed v.

(* ===================================================================== *)
(** ** source.go: the polling watcher                                    *)
(* ===================================================================== *)

(** The loop of [equalBytes], entered once the lengths are equal. *)
Fixpoint equalBytesFrom (a b : bytes) : bool :=
  match a, b with
  | x :: a', y :: b' =>
      if negb (Byte.eqb x y) then false else equalBytesFrom a' b'
  | _, _ => true
  end.

Definition equalBytes (a b : bytes) : bool :=
  if negb (length a =? length b)%nat then false else equalBytesFrom a b.

(** The state of the loop of [ApolloWatcher.Start]: [lastContent] (a nil
    slice and an empty one are the same to [equalBytes]) and, for every
    call of [onChange] so far, the content that triggered it. *)
Record watcherState := {
  lastContent : bytes;
  notified : list bytes;
}.

(** The [case <-ticker.C] of the loop; [loaded] is what
    [w.source.Load()] returned at this tick. *)
Definition watcherTick (st : watcherState) (loaded : result bytes)
    : watcherState :=
  match loaded with
  | Err _ => st
  | Ok data =>
      if negb (equalBytes (lastContent st) data) then
        {| lastContent := data; notified := notified st ++ [data] |}
      else st
  end.

(** [Start] for a non-nil source, over the ticks served before the
    context is done. *)
Definition ApolloWatcherStart (ticks : list (result bytes)) : watcherState :=
  foldl watcherTick {| lastContent := []; notified := [] |} ticks.

(** A value all of whose maps are [map[string]any], as the JSON, TOML
    and YAML decoders of the package return them. *)
Inductive plainTree : value → Prop :=
| plainTree_map m :
    (∀ k v, m !! k = Some v → plainTree v) → plainTree (VMap m)
| plainTree_leaf v : toStringMap v = None → plainTree v.

(* ===================================================================== *)
(** ** http_source.go: the HTTP source                                   *)
(* ===================================================================== *)

(** [HTTPSource] without its client: what the client's [Do] returns is
    an argument of [HTTPSourceLoad]. *)
Record HTTPSource := {
  hsURL : string;
  hsMethod : string;
  hsHeaders : gmap string string;
  hsFormat : string;
  hsName : string;
}.

Definition HTTPSourceOption := HTTPSource → HTTPSource.

Definition WithHTTPSourceMethod (method : string) : HTTPSourceOption := λ hs,
  if decide (TrimSpace method = "") then hs
  else {| hsURL := hsURL hs; hsMethod := ToUpper method;
          hsHeaders := hsHeaders hs; hsFormat := hsFormat hs;
          hsName := hsName hs |}.

Definition WithHTTPSourceHeader (key val : string) : HTTPSourceOption := λ hs,
  {| hsURL := hsURL hs; hsMethod := hsMethod hs;
     hsHeaders := <[key := val]> (hsHeaders hs); hsFormat := hsFormat hs;
     hsName := hsName hs |}.

Definition WithHTTPSourceFormat (format : string) : HTTPSourceOption := λ hs,
  if decide (format = "") then hs
  else {| hsURL := hsURL hs; hsMethod := hsMethod hs;
          hsHeaders := hsHeaders hs; hsFormat := normalizeFormat format;
          hsName := hsName hs |}.

Definition WithHTTPSourceName (name : string) : HTTPSourceOption := λ hs,
  if decide (TrimSpace name = "") then hs
  else {| hsURL := hsURL hs; hsMethod := hsMethod hs;
          hsHeaders := hsHeaders hs; hsFormat := hsFormat hs;
          hsName := name |}.

Definition NewHTTPSource (urlStr : string) (opts : list HTTPSourceOption)
    : HTTPSource :=
  let hs :=
    foldl (λ hs opt, opt hs)
      {| hsURL := TrimSpace urlStr; hsMethod := "GET"; hsHeaders := ∅;
         hsFormat := ""; hsName := "" |} opts in
  if decide (hsName hs = "") then
    {| hsURL := hsURL hs; hsMethod := hsMethod hs; hsHeaders := hsHeaders hs;
       hsFormat := hsFormat hs; hsName := hsURL hs |}
  else hs.

(** What [Load] reads of the response: the status code, what
    [io.ReadAll(resp.Body)] returns and the [Content-Type] header
    ([""] when absent). *)
Record httpResponse := {
  StatusCode : Z;
  Body : result bytes;
  ContentType : string;
}.

Section http_load.

(** [url.ParseRequestURI] and [http.NewRequest]: the error, if any. *)
Variable parseRequestURI : string → option error.
Variable newRequest : string → string → option error.

(** [HTTPSource.Load]; [doRequest] is what [hs.client.Do(req)] returns. *)
Definition HTTPSourceLoad (hs : HTTPSource) (doRequest : result httpResponse)
    : result (bytes * Metadata) :=
  if decide (hsURL hs = "") then Err (Errorf "HTTPSource: url is empty" [] None)
  else
    match parseRequestURI (hsURL hs) with
    | Some err =>
        Err (Errorf "HTTPSource: invalid url %q: %w" [hsURL hs] (Some err))
    | None =>
        match newRequest (hsMethod hs) (hsURL hs) with
        | Some err =>
            Err (Errorf "HTTPSource: new request failed: %w" [] (Some err))
        | None =>
            match doRequest with
            | Err err =>
                Err (Errorf "HTTPSource: request failed: %w" [] (Some err))
            | Ok resp =>
                if (StatusCode resp <? 200) || (300 <=? StatusCode resp) then
                  Err (Errorf "HTTPSource: non-2xx status code: %d"
                         [pretty (StatusCode resp)] None)
                else
                  match Body resp with
                  | Err err =>
                      Err (Errorf "HTTPSource: read response body failed: %w"
                             [] (Some err))
                  | Ok body =>
                      let format :=
                        if decide (hsFormat hs = "") then
                          match detectFormatFromPath (hsURL hs) with
                          | Ok f => f
                          | Err _ =>
                              let ct := ContentType resp in
                              if decide (ct ≠ "") then
                                match detectFormatFromContentType ct with
                                | Some f => f
                                | None => ""
                                end
                              else ""
                          end
                        else hsFormat hs in
                      if decide (format = "") then
                        Err (Errorf
                               "HTTPSource: cannot detect format from url/content-type (url=%q)"
                               [hsURL hs] None)
                      else Ok (body, {| Format := format; Source := hsName hs |})
                  end
            end
        end
    end.

End http_load.

(** The options of an HTTP source that leave its format alone. *)
Definition httpKeepsFormat (opt : HTTPSourceOption) : Prop :=
  (∃ method, opt = WithHTTPSourceMethod method)
  ∨ (∃ key val, opt = WithHTTPSourceHeader key val)
  ∨ (∃ name, opt = WithHTTPSourceName name).

(* ===================================================================== *)
(** * Properties                                                         *)
(* ===================================================================== *)

(** ** Deep merge *)

Section merge_facts.
Implicit Types dst src : tree.

Lemma mergeEntry_fold_lookup dst src k :
  map_fold (mergeEntry mergeInto) dst src !! k =
    match src !! k with
    | Some v => Some (mergedAt (dst !! k) v)
    | None => dst !! k
    end.
Proof.
  revert k. apply (map_fold_weak_ind (λ r m, ∀ k, r !! k =
    match m !! k with Some v => Some (mergedAt (dst !! k) v) | None => dst !! k end)).
  - intros k. by rewrite lookup_empty.
  - intros i x m r Hi IH k. unfold mergeEntry.
    pose proof (IH i) as IHi. rewrite Hi in IHi. rewrite IHi.
    destruct (decide (i = k)) as [->|Hne].
    + rewrite lookup_insert_eq. unfold mergedAt.
      destruct (dst !! k) as [e|]; [|by rewrite lookup_insert_eq].
      destruct (toStringMap e), (toStringMap x); by rewrite lookup_insert_eq.
    + rewrite (lookup_insert_ne m) by done. rewrite <- IH.
      destruct (dst !! i) as [e|]; [|by rewrite lookup_insert_ne].
      destruct (toStringMap e), (toStringMap x); by rewrite lookup_insert_ne.
Qed.

Lemma mergeInto_view m1 v m2 :
  toStringMap v = Some m2 → mergeInto m1 v = mergeInto m1 (VMap m2).
Proof. destruct v; simpl; intros; by simplify_eq. Qed.

Lemma mergeInto_lookup dst src k :
  mergeInto dst (VMap src) !! k =
    match src !! k with
    | Some v => Some (mergedAt (dst !! k) v)
    | None => dst !! k
    end.
Proof. apply mergeEntry_fold_lookup. Qed.

End merge_facts.

(** C3: [DefaultMergeStrategy.Merge] never fails; the keys of its result
    are those of [dst] and of [src]; a key bound in both to values that
    are maps holds the recursive merge of the two; any other key of [src]
    holds [src]'s value as a whole; keys [src] lacks keep [dst]'s value; and
    for disjoint key sets the result is exactly the union of the two
    trees. *)
Theorem Merge_deep_union (dst src : tree) :
  ∃ r, Merge dst src = Ok r
    ∧ dom r = dom dst ∪ dom src
    ∧ (∀ k e v m1 m2,
          dst !! k = Some e → src !! k = Some v →
          toStringMap e = Some m1 → toStringMap v = Some m2 →
          ∃ sub, Merge m1 m2 = Ok sub ∧ r !! k = Some (VMap sub))
    ∧ (∀ k v,
          src !! k = Some v →
          (∀ e, dst !! k = Some e → toStringMap e = None ∨ toStringMap v = None) →
          r !! k = Some v)
    ∧ (∀ k, src !! k = None → r !! k = dst !! k)
    ∧ (dom dst ## dom src → r = dst ∪ src).
Proof.
  exists (mergeInto dst (VMap src)). split; [done|].
  assert (Hk := mergeInto_lookup dst src).
  repeat split.
  - apply set_eq. intros k. rewrite elem_of_union, !elem_of_dom, Hk.
    destruct (src !! k) as [v|] eqn:Hs.
    + split; [intros _; right|]; eauto.
    + split; [by left|]. intros [?|[? ?]]; [done|discriminate].
  - intros k e v m1 m2 Hd Hs He Hv. exists (mergeInto m1 (VMap m2)).
    split; [done|]. rewrite Hk, Hs, Hd. unfold mergedAt. rewrite He, Hv.
    by rewrite (mergeInto_view _ _ _ Hv).
  - intros k v Hs Hno. rewrite Hk, Hs. unfold mergedAt.
    destruct (dst !! k) as [e|]; [|done].
    destruct (Hno e eq_refl) as [-> | ->]; [done|].
    by destruct (toStringMap e).
  - intros k Hs. by rewrite Hk, Hs.
  - intros Hdisj. apply map_eq. intros k. rewrite Hk.
    destruct (src !! k) as [v|] eqn:Hs.
    + assert (dst !! k = None) as Hd.
      { apply not_elem_of_dom. intros Hin.
        apply (Hdisj k Hin). apply elem_of_dom. eauto. }
      rewrite Hd. simpl. symmetry. apply lookup_union_Some_raw. right. done.
    + destruct (dst !! k) eqn:Hd; symmetry.
      * apply lookup_union_Some_raw. by left.
      * apply lookup_union_None. done.
Qed.

(** ** The decoder registry *)

Section registry_facts.

Lemma registerAll_cons c d decs :
  registerAll c (d :: decs) = registerAll (WithDecoder (Some d) c) decs.
Proof. reflexivity. Qed.

Lemma WithDecoder_decoders c d k :
  decoders (WithDecoder (Some d) c) !! k =
    if decide (ToLower (DecoderFormat d) ≠ "" ∧ ToLower (DecoderFormat d) = k)
    then Some d else decoders c !! k.
Proof.
  unfold WithDecoder. destruct (decide (ToLower (DecoderFormat d) ≠ "")) as [Hne|He]; simpl.
  - rewrite lookup_insert. repeat case_decide; naive_solver.
  - case_decide; naive_solver.
Qed.

Lemma registerAll_None c decs k :
  decoders (registerAll c decs) !! k = None ↔
    decoders c !! k = None ∧
    ∀ d, d ∈ decs →
      ToLower (DecoderFormat d) = "" ∨ ToLower (DecoderFormat d) ≠ k.
Proof.
  revert c. induction decs as [|d decs IH]; intros c.
  - split; [intros ?; split; [done|] | by intros [? _]].
    intros d Hd. by apply elem_of_nil in Hd.
  - rewrite registerAll_cons, IH, WithDecoder_decoders. split.
    + intros [Hc Hall]. case_decide as Hd; [done|]. split; [done|].
      intros d' [->|Hin]%elem_of_cons; [|by apply Hall].
      destruct (decide (ToLower (DecoderFormat d) = "")); [by left|right].
      naive_solver.
    + intros [Hc Hall]. split.
      * case_decide as Hd; [|done].
        destruct (Hall d) as [?|?]; [by left|naive_solver..].
      * intros d' Hin. apply Hall. by right.
Qed.

Lemma registerAll_Some c decs k d :
  decoders (registerAll c decs) !! k = Some d →
  decoders c !! k = Some d ∨ (d ∈ decs ∧ ToLower (DecoderFormat d) = k ∧ k ≠ "").
Proof.
  revert c. induction decs as [|d0 decs IH]; intros c.
  - by left.
  - rewrite registerAll_cons. intros [Hc|(Hin & ? & ?)]%IH.
    + rewrite WithDecoder_decoders in Hc. case_decide as Hd.
      * simplify_eq. right. destruct Hd as [? <-]. split_and!; [by left|done..].
      * by left.
    + right. split_and!; [by right|done..].
Qed.

Lemma configWithDecoders_registerAll decs :
  configWithDecoders decs = registerAll (NewDefaultConfig []) decs.
Proof. reflexivity. Qed.

Lemma configWithDecoders_None decs k :
  decoders (configWithDecoders decs) !! k = None ↔
    ∀ d, d ∈ decs →
      ToLower (DecoderFormat d) = "" ∨ ToLower (DecoderFormat d) ≠ k.
Proof.
  rewrite configWithDecoders_registerAll, registerAll_None. simpl.
  rewrite lookup_empty. naive_solver.
Qed.

Lemma configWithDecoders_Some decs k d :
  decoders (configWithDecoders decs) !! k = Some d →
  d ∈ decs ∧ ToLower (DecoderFormat d) = k.
Proof.
  rewrite configWithDecoders_registerAll.
  intros [Hd|(? & ? & ?)]%registerAll_Some; [|done].
  simpl in Hd. by rewrite lookup_empty in Hd.
Qed.

End registry_facts.

(** ** Strings *)

Section string_facts.
Implicit Types (s t u p : string) (c d : ascii) (n : nat).
Local Arguments Ascii.eqb : simpl never.

Lemma app_cons c s t : String c s +:+ t = String c (s +:+ t).
Proof. reflexivity. Qed.

Lemma app_nil_r s : s +:+ "" = s.
Proof. induction s as [|c s IH]; [done|]. by rewrite app_cons, IH. Qed.

Lemma app_assoc s t u : (s +:+ t) +:+ u = s +:+ t +:+ u.
Proof. induction s as [|c s IH]; [done|]. by rewrite !app_cons, IH. Qed.

Lemma app_length s t :
  String.length (s +:+ t) = (String.length s + String.length t)%nat.
Proof. induction s as [|c s IH]; [done|]. rewrite app_cons. simpl. by rewrite IH. Qed.

Lemma take_app_length s t : take (String.length s) (s +:+ t) = s.
Proof. induction s as [|c s IH]; [by destruct t|]. rewrite app_cons. simpl. by rewrite IH. Qed.

Lemma drop_app_length s t n : drop (String.length s + n) (s +:+ t) = drop n t.
Proof. induction s as [|c s IH]; [done|]. rewrite app_cons. simpl. by rewrite IH. Qed.

Lemma drop_length n s : String.length (drop n s) = (String.length s - n)%nat.
Proof. revert s. induction n as [|n IH]; intros [|c s]; simpl; auto. Qed.

Lemma take_0 s : take 0 s = "".
Proof. by destruct s. Qed.

(** *** Occurrences of one byte *)

Lemma Index_byte_cons c d s :
  Index (String d s) (String c "") =
    if Ascii.eqb c d then Some 0%nat else S <$> Index s (String c "").
Proof.
  simpl. destruct (Ascii.eqb c d); simpl; [by destruct s|done].
Qed.

Lemma noByte_nil c : noByte c "".
Proof. reflexivity. Qed.

Lemma noByte_cons c d s : noByte c (String d s) ↔ c ≠ d ∧ noByte c s.
Proof.
  unfold noByte. rewrite Index_byte_cons.
  destruct (Ascii.eqb_spec c d) as [->|Hne].
  - split; [done|by intros [? _]].
  - destruct (Index s (String c "")); simpl; naive_solver.
Qed.

Lemma noByte_app c s t : noByte c (s +:+ t) ↔ noByte c s ∧ noByte c t.
Proof.
  induction s as [|d s IH].
  - split; [by split; [apply noByte_nil|]|by intros [_ ?]].
  - rewrite app_cons, !noByte_cons, IH. naive_solver.
Qed.

Lemma Index_byte_app c s t :
  noByte c s → Index (s +:+ String c t) (String c "") = Some (String.length s).
Proof.
  induction s as [|d s IH]; intros Hs.
  - change ("" +:+ String c t) with (String c t).
    by rewrite Index_byte_cons, Ascii.eqb_refl.
  - apply noByte_cons in Hs as [Hne Hs]. rewrite app_cons, Index_byte_cons.
    destruct (Ascii.eqb_spec c d); [done|]. by rewrite IH.
Qed.

(** The text after the first [c] of [w +:+ t], when [t] has no [c],
    still ends in [t]. *)
Lemma drop_after_byte c w t e :
  noByte c t →
  Index (w +:+ t) (String c "") = Some e →
  ∃ w', drop (e + 1) (w +:+ t) = w' +:+ t.
Proof.
  intros Ht. revert e. induction w as [|d w IH]; intros e.
  - change ("" +:+ t) with t. unfold noByte in Ht. by rewrite Ht.
  - rewrite app_cons, Index_byte_cons. destruct (Ascii.eqb c d).
    + intros [= <-]. by exists w.
    + destruct (Index (w +:+ t) (String c "")) as [e'|] eqn:He; [|done].
      intros [= <-]. simpl. by apply IH.
Qed.

(** *** Occurrences of the placeholder opening *)

Lemma HasPrefix_open s :
  HasPrefix s "${" = true ↔ ∃ t, s = "${" +:+ t.
Proof.
  split.
  - destruct s as [|a [|b t]]; simpl; try done.
    + by rewrite andb_false_r.
    + intros [Ha [Hb _]%andb_prop]%andb_prop.
      apply Ascii.eqb_eq in Ha as <-. apply Ascii.eqb_eq in Hb as <-. by exists t.
  - intros [t ->]. simpl. by destruct t.
Qed.

(** The first opening of [pre +:+ "${" +:+ post] is found, and what
    follows it is [post], or again a text ending in ["${" +:+ post]. *)
Lemma Index_open_app pre post :
  ∃ idx, Index (pre +:+ "${" +:+ post) "${" = Some idx ∧
         (idx + 2 ≤ String.length (pre +:+ "${" +:+ post))%nat ∧
         (drop (idx + 2) (pre +:+ "${" +:+ post) = post ∨
          ∃ w, drop (idx + 2) (pre +:+ "${" +:+ post) = w +:+ "${" +:+ post).
Proof.
  induction pre as [|c pre IH].
  - exists 0%nat. change ("" +:+ "${" +:+ post) with (String "$" (String "{" post)).
    split_and!; [by destruct post|simpl; lia|by left].
  - rewrite app_cons.
    destruct (HasPrefix (String c (pre +:+ "${" +:+ post)) "${") eqn:Hp.
    + exists 0%nat. split_and!.
      * simpl in *. by rewrite Hp.
      * simpl. rewrite app_length. simpl. lia.
      * right. apply HasPrefix_open in Hp as [t Ht].
        injection Ht as -> Ht. destruct pre as [|c' pre]; [done|].
        rewrite app_cons in Ht. injection Ht as -> Ht.
        exists pre. simpl. by rewrite app_cons.
    + destruct IH as (idx & Hidx & Hlen & Hdrop). exists (S idx). split_and!.
      * cbn [Index]. rewrite Hp, Hidx. done.
      * simpl. lia.
      * done.
Qed.

(** With no opening in [pre], the first one of [pre +:+ "${" +:+ t] is
    right after [pre]. *)
Lemma Index_open_first pre t :
  Index pre "${" = None →
  Index (pre +:+ "${" +:+ t) "${" = Some (String.length pre).
Proof.
  induction pre as [|c pre IH]; intros Hpre.
  - change ("" +:+ "${" +:+ t) with (String "$" (String "{" t)). by destruct t.
  - rewrite app_cons.
    assert (HasPrefix (String c (pre +:+ "${" +:+ t)) "${" = false) as Hp.
    { apply not_true_is_false. intros [u Hu]%HasPrefix_open.
      injection Hu as -> Hu. destruct pre as [|c' pre]; [done|].
      rewrite app_cons in Hu. injection Hu as -> Hu.
      simpl in Hpre. by destruct pre. }
    cbn [Index]. rewrite Hp. cbn [Index] in Hpre.
    destruct (HasPrefix (String c pre) "${"); [done|].
    destruct (Index pre "${") eqn:Hi; [done|]. by rewrite IH.
Qed.

Lemma HasPrefix_length s p :
  HasPrefix s p = true → (String.length p ≤ String.length s)%nat.
Proof.
  revert s. induction p as [|a p IH]; intros [|b s]; simpl; try done; [lia|].
  intros [_ H]%andb_prop. apply IH in H. lia.
Qed.

Lemma Index_bound s sub i :
  Index s sub = Some i → (i + String.length sub ≤ String.length s)%nat.
Proof.
  revert i. induction s as [|c s IH]; intros i; cbn [Index].
  - destruct (HasPrefix "" sub) eqn:Hp; [|done].
    intros [= <-]. by apply HasPrefix_length in Hp.
  - destruct (HasPrefix (String c s) sub) eqn:Hp.
    + intros [= <-]. by apply HasPrefix_length in Hp.
    + destruct (Index s sub) as [j|]; [|done]. intros [= <-].
      specialize (IH j eq_refl). simpl. lia.
Qed.

End string_facts.

(** *** Trimming *)

Section trim_facts.
Variable f : ascii → bool.
Implicit Types (s t : string) (c : ascii).

Local Abbreviation TL := (TrimLeftFunc f).
Local Abbreviation TR := (TrimRightFunc f).

Lemma TL_app s t : TL s ≠ "" → TL (s +:+ t) = TL s +:+ t.
Proof.
  induction s as [|c s IH]; [done|]. rewrite app_cons. simpl.
  destruct (f c); [apply IH|by rewrite app_cons].
Qed.

Lemma TL_keep c s : f c = false → TL (String c s) = String c s.
Proof. intros Hc. simpl. by rewrite Hc. Qed.

Lemma TR_keep c s : f c = false → TR (String c s) = String c (TR s).
Proof. intros Hc. simpl. rewrite Hc. by destruct (TR s). Qed.

Lemma TR_cons_nonempty c s : TR s ≠ "" → TR (String c s) = String c (TR s).
Proof. intros Hs. simpl. by destruct (TR s). Qed.

Lemma TR_app s t : TR t ≠ "" → TR (s +:+ t) = s +:+ TR t.
Proof.
  intros Ht. induction s as [|c s IH]; [done|].
  rewrite !app_cons, TR_cons_nonempty, IH; [done|].
  rewrite IH. by destruct s.
Qed.

Lemma TL_suffix s : ∃ x, s = x +:+ TL s.
Proof.
  induction s as [|c s [x IH]]; [by exists ""|]. simpl. destruct (f c).
  - exists (String c x). by rewrite app_cons, <- IH.
  - by exists "".
Qed.

Lemma TR_prefix s : ∃ y, s = TR s +:+ y.
Proof.
  induction s as [|c s [y IH]]; [by exists ""|]. simpl.
  destruct (TR s) eqn:Hs.
  - destruct (f c); [by exists (String c s)|]. exists s. by rewrite app_cons.
  - exists y. by rewrite app_cons, <- IH.
Qed.

Lemma TL_head s : TL s ≠ "" → ∃ c r, TL s = String c r ∧ f c = false.
Proof.
  induction s as [|c s IH]; [done|]. simpl. destruct (f c) eqn:Hc; [done|]. eauto.
Qed.

Lemma TL_idem s : TL (TL s) = TL s.
Proof.
  destruct (decide (TL s = "")) as [->|Hne]; [done|].
  destruct (TL_head s Hne) as (c & r & -> & Hc). by apply TL_keep.
Qed.

Lemma TR_idem s : TR (TR s) = TR s.
Proof.
  induction s as [|c s IH]; [done|]. simpl. destruct (TR s) eqn:Hs.
  - destruct (f c) eqn:Hc; [done|]. simpl. by rewrite Hc.
  - rewrite TR_cons_nonempty; by rewrite IH.
Qed.

Lemma TL_TR_comm s : TL (TR s) = TR (TL s).
Proof.
  induction s as [|c s IH]; [done|]. destruct (f c) eqn:Hc.
  - cbn [TrimLeftFunc]. rewrite Hc, <- IH. cbn [TrimRightFunc].
    destruct (TR s) eqn:Hs; simpl; by rewrite Hc.
  - rewrite (TL_keep c s Hc), (TR_keep c s Hc). by apply TL_keep.
Qed.

End trim_facts.

Lemma TrimSpace_idem s : TrimSpace (TrimSpace s) = TrimSpace s.
Proof.
  unfold TrimSpace.
  by rewrite (TL_TR_comm isSpace (TrimLeftFunc isSpace s)), TL_idem, TR_idem.
Qed.

Lemma TrimSpace_alt s :
  TrimSpace s = TrimLeftFunc isSpace (TrimRightFunc isSpace s).
Proof. unfold TrimSpace. by rewrite TL_TR_comm. Qed.

Lemma noByte_TrimLeft c s : noByte c s → noByte c (TrimLeftFunc isSpace s).
Proof.
  intros Hs. destruct (TL_suffix isSpace s) as [x Hx]. rewrite Hx in Hs.
  by apply noByte_app in Hs as [_ ?].
Qed.

Lemma noByte_TrimRight c s : noByte c s → noByte c (TrimRightFunc isSpace s).
Proof.
  intros Hs. destruct (TR_prefix isSpace s) as [y Hy]. rewrite Hy in Hs.
  by apply noByte_app in Hs as [? _].
Qed.

(** ** The aggregator *)

Section load_facts.
Implicit Types (c : DefaultConfig) (env : lookupFn).
Implicit Types (sources : list (option ConfigSource)).

Lemma loadSources_app c tmp pre post :
  loadSources c tmp (pre ++ post) =
    (tmp' ← loadSources c tmp pre; loadSources c tmp' post).
Proof.
  revert tmp. induction pre as [|[src|] pre IH]; intros tmp; simpl; [done| |done].
  destruct (loadSource c tmp src); simpl; [apply IH|done].
Qed.

Lemma loadSource_Err c tmp src e :
  loadSource c tmp src = Err e → sourceFailure c src e.
Proof.
  unfold loadSource. destruct (SourceLoad src) as [[raw meta] [cause|]] eqn:Hl.
  { intros [= <-]. by eapply FailLoad. }
  destruct (decoders c !! ToLower (Format meta)) as [dec|] eqn:Hd;
    [|intros [= <-]; by eapply FailNoDecoder].
  destruct (Decode dec raw) as [m|cause] eqn:Hm;
    [|intros [= <-]; by eapply FailDecode].
  destruct (StrategyMerge (merge c) tmp m) as [tmp'|cause] eqn:Hs; [done|].
  intros [= <-]. by eapply FailMerge.
Qed.

Lemma loadSources_Err c tmp sources e :
  loadSources c tmp sources = Err e →
  ∃ src, Some src ∈ sources ∧ sourceFailure c src e.
Proof.
  revert tmp. induction sources as [|[src|] sources IH]; intros tmp; simpl; [done|..].
  - destruct (loadSource c tmp src) as [tmp'|e'] eqn:Hs; simpl.
    + intros (s & Hin & Hf)%IH. exists s. split; [by right|done].
    + intros [= <-]. exists src. split; [by left|by eapply loadSource_Err].
  - intros (s & Hin & Hf)%IH. exists s. split; [by right|done].
Qed.

Lemma expandStep_Err c env tmp e :
  expandStep c env tmp = Err e →
  ∃ exp lookup cause,
    envExpand c = true ∧ expander c = Some exp ∧
    expandMapInPlace tmp exp lookup = Err cause ∧
    e = Errorf "expand env vars failed: %w" [] (Some cause).
Proof.
  unfold expandStep. destruct (envExpand c); [|done].
  destruct (expander c) as [exp|]; [|done].
  match goal with |- context [expandMapInPlace tmp exp ?l] =>
    destruct (expandMapInPlace tmp exp l) as [?|cause] eqn:He end; [done|].
  intros [= <-]. eauto 10.
Qed.

End load_facts.

(** C1 (amended): a failing [Load] leaves the configuration, hence the
    published tree, as it was, and its error is the failing step's:
    for a failing source load, decode or merge it wraps the originating
    error with the display name the source reported; for a format with no
    decoder it names the lower-cased format; for a failing placeholder
    expansion it wraps the originating error without a source name.  The
    first failing step decides, and when every step succeeds on a
    non-empty list the published tree becomes the merged and expanded
    tree, while an empty list returns nil and publishes nothing. *)
Theorem Load_fail_fast_all_or_nothing
    (c : DefaultConfig) (env : lookupFn) (sources : list (option ConfigSource)) :
  (∀ c' e, Load c env sources = (c', Some e) →
     c' = c ∧
     ((∃ src, Some src ∈ sources ∧ sourceFailure c src e) ∨
      (∃ tmp exp lookup cause,
         loadSources c ∅ sources = Ok tmp ∧
         expandMapInPlace tmp exp lookup = Err cause ∧
         e = Errorf "expand env vars failed: %w" [] (Some cause))))
  ∧ (∀ src e, sourceFailure c src e →
       wrapsWithSource e (Source (SourceLoad src).1.2) ∨
       e = Errorf "no decoder registered for format: %s"
             [ToLower (Format (SourceLoad src).1.2)] None)
  ∧ (∀ pre src post tmp e,
       sources = pre ++ Some src :: post →
       loadSources c ∅ pre = Ok tmp →
       loadSource c tmp src = Err e →
       Load c env sources = (c, Some e))
  ∧ (∀ tmp e,
       sources ≠ [] →
       loadSources c ∅ sources = Ok tmp →
       expandStep c env tmp = Err e →
       Load c env sources = (c, Some e))
  ∧ (∀ tmp tmp',
       sources ≠ [] →
       loadSources c ∅ sources = Ok tmp →
       expandStep c env tmp = Ok tmp' →
       Load c env sources = (setData c tmp', None) ∧
       Get (setData c tmp') "" = Some (VMap tmp'))
  ∧ (sources = [] → Load c env sources = (c, None)).
Proof.
  split_and!.
  - intros c' e. unfold Load. destruct sources as [|s0 sources0] eqn:Hs; [done|].
    rewrite <- Hs. clear Hs.
    destruct (loadSources c ∅ sources) as [tmp|e1] eqn:Hl; simpl.
    + destruct (expandStep c env tmp) as [tmp'|e2] eqn:He; [done|].
      intros [= <- <-]. split; [done|right].
      apply expandStep_Err in He as (exp & lookup & cause & _ & _ & ? & ?).
      eauto 10.
    + intros [= <- <-]. split; [done|left]. by eapply loadSources_Err.
  - intros src e Hf. destruct Hf as [raw meta cause Hl| raw meta Hl ?
      | raw meta dec cause Hl ? ? | raw meta dec tmp m cause Hl ? ? ?];
      rewrite Hl; simpl; [left|by right|left|left]; by eexists _, _.
  - intros pre src post tmp e -> Hpre Hsrc. unfold Load.
    rewrite loadSources_app, Hpre. simpl. rewrite Hsrc. simpl.
    by destruct pre.
  - intros tmp e Hne Hl He. unfold Load. rewrite Hl. simpl. rewrite He.
    by destruct sources.
  - intros tmp tmp' Hne Hl He. unfold Load. rewrite Hl. simpl. rewrite He.
    split; [by destruct sources|done].
  - by intros ->.
Qed.

(** C1, as stated, fails: with expansion enabled, a source whose tree
    holds an unterminated placeholder makes [Load] return an error that
    carries no source name at all; and [Load] of no sources returns nil
    without publishing the (empty) merged tree. *)
Lemma Load_error_without_source_name :
  (∃ e, (Load Examples.expandingConfig Examples.noEnv
           [Some (Examples.namedSource "json" "app.json")]).2 = Some e
        ∧ ∀ name, ¬ wrapsWithSource e name)
  ∧ data (Load (setData Examples.yamlConfig {[ "old" := VInt 1 ]})
            Examples.noEnv []).1
      ≠ Some ∅.
Proof.
  split.
  - exists (Errorf "expand env vars failed: %w" []
              (Some (Errorf "placeholder not closed: %q" ["0.0.0.0:${env.PORT"] None))).
    split; [vm_compute; reflexivity|].
    intros name (format & cause & [=]).
  - simpl. intros H. apply (f_equal (λ o, o ≫= (λ m : tree, m !! "old"))) in H.
    discriminate H.
Qed.

(** C2 (amended): [Load] looks the decoder up under the lower-cased
    [Metadata.Format], and decoders are registered under their
    lower-cased, non-empty tag; so for a source that loads, [Load]
    returns the no-decoder error exactly when no registered decoder has
    the same tag up to letter case, and a decoder it picks has that tag.
    [Load] itself does not turn [yml] into [yaml]: [normalizeFormat],
    which the built-in sources apply to the format they are configured
    with, does (after trimming and lower-casing). *)
Theorem Load_decoder_selection
    (decs : list Decoder) (env : lookupFn) (raw : bytes) (meta : Metadata) :
  let c := configWithDecoders decs in
  let noDecoder :=
    Errorf "no decoder registered for format: %s" [ToLower (Format meta)] None in
  ((Load c env [Some (sourceOf raw meta)]).2 = Some noDecoder ↔
     ∀ d, d ∈ decs →
       ToLower (DecoderFormat d) = "" ∨
       ToLower (DecoderFormat d) ≠ ToLower (Format meta))
  ∧ (∀ dec, decoders c !! ToLower (Format meta) = Some dec →
       dec ∈ decs ∧ ToLower (DecoderFormat dec) = ToLower (Format meta))
  ∧ normalizeFormat "yml" = "yaml"
  ∧ normalizeFormat " YML " = "yaml"
  ∧ (∀ f, ToLower (TrimSpace f) ≠ "yml" → normalizeFormat f = ToLower (TrimSpace f)).
Proof.
  intros c noDecoder.
  assert (Hnone : decoders c !! ToLower (Format meta) = None ↔
            ∀ d, d ∈ decs →
              ToLower (DecoderFormat d) = "" ∨
              ToLower (DecoderFormat d) ≠ ToLower (Format meta)).
  { apply configWithDecoders_None. }
  split_and!.
  - rewrite <- Hnone. unfold Load, loadSources, loadSource, sourceOf. simpl.
    destruct (decoders c !! ToLower (Format meta)) as [dec|] eqn:Hd; [|done].
    split; [|done].
    destruct (Decode dec raw) as [m|?]; [|done]. simpl.
    destruct (StrategyMerge (merge c) ∅ m) as [tmp|?]; [|done]. simpl.
    destruct (expandStep c env tmp) as [?|e] eqn:He; [done|].
    apply expandStep_Err in He as (? & ? & ? & _ & _ & _ & ->). done.
  - intros dec Hd. by apply configWithDecoders_Some.
  - reflexivity.
  - reflexivity.
  - intros f Hf. unfold normalizeFormat. by case_decide.
Qed.

(** C2, as stated, fails: with only a decoder tagged [yaml] registered, a
    source that declares format [yml] is not decoded. *)
Lemma Load_yml_not_normalized :
  (Load Examples.yamlConfig Examples.noEnv
     [Some (Examples.namedSource "yml" "app.yml")]).2
  = Some (Errorf "no decoder registered for format: %s" ["yml"] None).
Proof. vm_compute. reflexivity. Qed.

(** ** Typed accessors *)

(** C10: on a path holding a string, [GetBool] answers true for
    [true], [1], [yes], [y], [on] and false for [false], [0], [no], [n],
    [off], whatever the letter case, and reports failure for any other
    string; whereas the environment value parser reads [0] and [1] as
    integers. *)
Theorem GetBool_string_coercion (c : DefaultConfig) (path s : string) :
  Get c path = Some (VString s) →
  (ToLower s ∈ ["true"; "1"; "yes"; "y"; "on"] → GetBool c path = (true, true))
  ∧ (ToLower s ∈ ["false"; "0"; "no"; "n"; "off"] → GetBool c path = (false, true))
  ∧ (ToLower s ∉ ["true"; "1"; "yes"; "y"; "on"; "false"; "0"; "no"; "n"; "off"] →
       GetBool c path = (false, false))
  ∧ (∀ parseFloat parseDuration,
       defaultEnvValueParser parseFloat parseDuration "0" = VInt 0 ∧
       defaultEnvValueParser parseFloat parseDuration "1" = VInt 1).
Proof.
  intros Hget. unfold GetBool. rewrite Hget. split_and!.
  - intros Hin. by rewrite bool_decide_eq_true_2.
  - intros Hin. rewrite bool_decide_eq_false_2.
    + by rewrite bool_decide_eq_true_2.
    + intros Ht. revert Hin. generalize (ToLower s) Ht. clear.
      intros l Ht Hf. set_solver.
  - intros Hnot. rewrite !bool_decide_eq_false_2; [done|set_solver..].
  - intros pf pd. split; reflexivity.
Qed.

Lemma GetBool_string_coercion_witness :
  Get (setData Examples.yamlConfig {[ "flag" := VString "ON" ]}) "flag"
    = Some (VString "ON")
  ∧ GetBool (setData Examples.yamlConfig {[ "flag" := VString "ON" ]}) "flag"
    = (true, true).
Proof.
  split; [reflexivity|].
  apply (GetBool_string_coercion _ "flag" "ON"); [reflexivity|].
  apply (bool_decide_unpack _). vm_compute. exact I.
Defined.

(** ** Properties grammar *)

(** C5 (the code departs from the claim): a physical line ending in two
    backslashes, an even number, still continues onto the next physical
    line, and loses one of the two. *)
Theorem splitLogicalLines_even_backslashes_continue :
  Properties.splitLogicalLines ("path = C:\\" +:+ String "010" "  next = 1")
  = ["path = C:\next = 1"].
Proof. vm_compute. reflexivity. Qed.

(** C7 (the code departs from the claim): after [\u], a sign followed by
    three hex digits is accepted instead of rejected, because the four
    runes go through [strconv.ParseInt], which takes a sign. *)
Theorem unescape_signed_unicode_accepted :
  Properties.unescape (Properties.runes "\u+041") = Ok [65]
  ∧ Properties.unescape (Properties.runes "\u-041") = Ok [65533].
Proof. split; vm_compute; reflexivity. Qed.

(** ** Environment value parser *)

Section env_value_parser_facts.
Variables ParseFloat ParseDuration : string → option Z.

Local Abbreviation parse := (defaultEnvValueParser ParseFloat ParseDuration).

Lemma env_literals_nonempty s :
  ToLower s ∈ envTrueLiterals ++ envFalseLiterals → s ≠ "".
Proof. intros Hin ->. vm_compute in Hin. set_solver. Qed.

Lemma parse_not_bool raw :
  TrimSpace raw ≠ "" →
  ToLower (TrimSpace raw) ∉ envTrueLiterals ++ envFalseLiterals →
  parse raw =
    match ParseInt (TrimSpace raw) 10 64 with
    | Some i => VInt i
    | None =>
        match (if ContainsAny (TrimSpace raw) ".eE"
               then ParseFloat (TrimSpace raw) else None) with
        | Some f => VFloat f
        | None =>
            match ParseDuration (TrimSpace raw) with
            | Some d => VDuration d
            | None => VString (TrimSpace raw)
            end
        end
    end.
Proof.
  intros Hne Hnot. unfold defaultEnvValueParser.
  rewrite decide_False by done.
  rewrite !bool_decide_eq_false_2; [done|..];
    intros Hin; apply Hnot; unfold envTrueLiterals, envFalseLiterals; set_solver.
Qed.

Lemma parse_empty raw : TrimSpace raw = "" → parse raw = VString "".
Proof. intros H. unfold defaultEnvValueParser. by rewrite H. Qed.

End env_value_parser_facts.

(** C6: the default environment value parser trims its argument and
    then tries, in this order and each only when the earlier ones did not
    apply: the boolean literals (which exclude [0] and [1]), a base-10
    integer, a float when the text has a [.], [e] or [E], a duration, and
    at last the trimmed text itself; so a duration result never comes
    from a bare integer, and the five sample literals parse as stated. *)
Theorem defaultEnvValueParser_inference
    (ParseFloat ParseDuration : string → option Z) (f15 d500 : Z) :
  ParseFloat "1.5" = Some f15 →
  ParseDuration "500ms" = Some d500 →
  ParseFloat "hello" = None →
  ParseDuration "hello" = None →
  let parse := defaultEnvValueParser ParseFloat ParseDuration in
  let notBool s := ToLower s ∉ envTrueLiterals ++ envFalseLiterals in
  (∀ raw, ToLower (TrimSpace raw) ∈ envTrueLiterals → parse raw = VBool true)
  ∧ (∀ raw, ToLower (TrimSpace raw) ∈ envFalseLiterals → parse raw = VBool false)
  ∧ (∀ raw, TrimSpace raw = "0" → parse raw = VInt 0)
  ∧ (∀ raw, TrimSpace raw = "1" → parse raw = VInt 1)
  ∧ (∀ raw i,
       notBool (TrimSpace raw) →
       ParseInt (TrimSpace raw) 10 64 = Some i →
       parse raw = VInt i)
  ∧ (∀ raw f,
       notBool (TrimSpace raw) →
       ParseInt (TrimSpace raw) 10 64 = None →
       ContainsAny (TrimSpace raw) ".eE" = true →
       ParseFloat (TrimSpace raw) = Some f →
       parse raw = VFloat f)
  ∧ (∀ raw f, ContainsAny (TrimSpace raw) ".eE" = false → parse raw ≠ VFloat f)
  ∧ (∀ raw d,
       TrimSpace raw ≠ "" →
       notBool (TrimSpace raw) →
       ParseInt (TrimSpace raw) 10 64 = None →
       ContainsAny (TrimSpace raw) ".eE" = false ∨ ParseFloat (TrimSpace raw) = None →
       ParseDuration (TrimSpace raw) = Some d →
       parse raw = VDuration d)
  ∧ (∀ raw d, parse raw = VDuration d → ParseInt (TrimSpace raw) 10 64 = None)
  ∧ (∀ raw,
       notBool (TrimSpace raw) →
       ParseInt (TrimSpace raw) 10 64 = None →
       ContainsAny (TrimSpace raw) ".eE" = false ∨ ParseFloat (TrimSpace raw) = None →
       ParseDuration (TrimSpace raw) = None →
       parse raw = VString (TrimSpace raw))
  ∧ parse "true" = VBool true
  ∧ parse "0" = VInt 0
  ∧ parse "1.5" = VFloat f15
  ∧ parse "500ms" = VDuration d500
  ∧ parse "hello" = VString "hello".
Proof.
  intros Hf15 Hd500 Hfh Hdh parse notBool.
  assert (Hstep : ∀ raw, TrimSpace raw ≠ "" → notBool (TrimSpace raw) → parse raw = _)
    by apply parse_not_bool.
  assert (Hnonempty : ∀ raw i, ParseInt (TrimSpace raw) 10 64 = Some i → TrimSpace raw ≠ "").
  { intros raw i Hi He. by rewrite He in Hi. }
  split_and!.
  - intros raw Hin. unfold parse, defaultEnvValueParser.
    rewrite decide_False.
    + by rewrite bool_decide_eq_true_2.
    + apply env_literals_nonempty. set_solver.
  - intros raw Hin. unfold parse, defaultEnvValueParser.
    rewrite decide_False.
    + rewrite bool_decide_eq_false_2; [by rewrite bool_decide_eq_true_2|].
      revert Hin. generalize (ToLower (TrimSpace raw)). unfold envFalseLiterals.
      intros l Hl Ht. set_solver.
    + apply env_literals_nonempty. set_solver.
  - intros raw H0. unfold parse, defaultEnvValueParser. by rewrite H0.
  - intros raw H1. unfold parse, defaultEnvValueParser. by rewrite H1.
  - intros raw i Hnb Hi. rewrite Hstep by eauto. by rewrite Hi.
  - intros raw f Hnb Hi Hc Hf. rewrite Hstep; [by rewrite Hi, Hc, Hf|..|done].
    intros He. by rewrite He in Hc.
  - intros raw f Hc. unfold parse, defaultEnvValueParser. rewrite Hc.
    repeat (case_decide || case_bool_decide || case_match); done.
  - intros raw d Hne Hnb Hi Hc Hd. rewrite Hstep by done. rewrite Hi, Hd.
    by destruct Hc as [-> | ->]; [|destruct (ContainsAny _ _)].
  - intros raw d. unfold parse, defaultEnvValueParser.
    repeat (case_decide || case_bool_decide || case_match); done.
  - intros raw Hnb Hi Hc Hd. destruct (decide (TrimSpace raw = "")) as [He|Hne].
    + rewrite He. by apply parse_empty.
    + rewrite Hstep by done. rewrite Hi, Hd.
      by destruct Hc as [-> | ->]; [|destruct (ContainsAny _ _)].
  - reflexivity.
  - reflexivity.
  - unfold parse, defaultEnvValueParser. simpl. change (TrimSpace "1.5") with "1.5".
    by rewrite Hf15.
  - unfold parse, defaultEnvValueParser. simpl. change (TrimSpace "500ms") with "500ms".
    by rewrite Hd500.
  - unfold parse, defaultEnvValueParser. simpl. change (TrimSpace "hello") with "hello".
    by rewrite Hfh, Hdh.
Qed.

Lemma defaultEnvValueParser_inference_witness :
  defaultEnvValueParser sampleParseFloat sampleParseDuration " 500ms "
  = VDuration 500000000.
Proof.
  pose proof (defaultEnvValueParser_inference sampleParseFloat sampleParseDuration
                4609434218613702656 500000000
                eq_refl eq_refl eq_refl eq_refl) as H.
  simpl in H. destruct H as (_ & _ & _ & _ & _ & _ & _ & Hdur & _).
  apply Hdur.
  - discriminate.
  - vm_compute. intros Hin. set_solver.
  - reflexivity.
  - left. reflexivity.
  - reflexivity.
Defined.

(** ** The multi-namespace source and its fallback cache *)

Section apollo_facts.
Import Apollo.
Variable jsonUnmarshal : bytes → result tree.
Variable jsonMarshal : tree → result bytes.

Local Abbreviation loadNss := (loadNamespaces jsonUnmarshal).

Lemma loadNamespaces_app cache final pre post :
  loadNss cache final (pre ++ post) =
    match loadNss cache final pre with
    | (cache1, Ok final1) => loadNss cache1 final1 post
    | (cache1, Err e) => (cache1, Err e)
    end.
Proof.
  revert cache final. induction pre as [|[ns fetched] pre IH]; intros cache final.
  - done.
  - simpl. destruct fetched as [b|err].
    + destruct (jsonUnmarshal b); [apply IH|done].
    + unfold CacheGet. destruct (cache !! ns) as [cached|]; [|done].
      destruct (jsonUnmarshal cached); [apply IH|done].
Qed.

Lemma loadNamespaces_cache cache final nss cache1 final1 k :
  loadNss cache final nss = (cache1, Ok final1) →
  cache1 !! k =
    match lastFetched k nss with
    | Some b => Some b
    | None => cache !! k
    end.
Proof.
  revert cache final. induction nss as [|[ns fetched] nss IH]; intros cache final.
  - simpl. by intros [= <- _].
  - simpl. destruct fetched as [b|err].
    + destruct (jsonUnmarshal b); [|done]. intros H. rewrite (IH _ _ H).
      destruct (lastFetched k nss); [done|]. unfold CacheSet.
      case_decide as Hk; [subst; by rewrite lookup_insert_eq|by rewrite lookup_insert_ne].
    + unfold CacheGet. destruct (cache !! ns) as [cached|]; [|done].
      destruct (jsonUnmarshal cached); [|done]. intros H. rewrite (IH _ _ H).
      by destruct (lastFetched k nss).
Qed.

End apollo_facts.



(** ** Placeholder expansion *)

Section expand_facts.
Implicit Types (lookup : lookupFn) (s rest res pre post : string).

Lemma placeholderError_intro format args :
  format ∈ ["empty placeholder expression";
            "invalid placeholder (missing dot): %q";
            "invalid placeholder: %q";
            "placeholder not closed: %q"] →
  placeholderError (Errorf format args None).
Proof. intros. by exists format, args. Qed.

Lemma expandSinglePlaceholder_Err rawExpr lookup q e :
  expandSinglePlaceholder rawExpr lookup = (q, Err e) → placeholderError e.
Proof.
  unfold expandSinglePlaceholder.
  repeat (case_decide || case_match); intros [= <- <-] || intros [=];
    apply placeholderError_intro; set_solver.
Qed.

(** A text with an opening that no closing brace follows makes the
    loop fail, however the placeholders before it expand. *)
Lemma expandLoop_unterminated fuel w post res lookup :
  noByte "}" post →
  (String.length (w +:+ "${" +:+ post) < fuel)%nat →
  ∃ q e, expandLoop fuel (w +:+ "${" +:+ post) res lookup = (q, Err e) ∧
         placeholderError e.
Proof.
  intros Hpost. revert w res.
  induction fuel as [|fuel IH]; intros w res Hfuel; [lia|].
  destruct (Index_open_app w post) as (idx & Hidx & Hlen & Hdrop).
  cbn [expandLoop]. rewrite Hidx.
  assert (Hclosed : ∃ q e,
            ([] : list string,
             Err (Errorf "placeholder not closed: %q" [w +:+ "${" +:+ post] None)
               : result string) = (q, Err e) ∧ placeholderError e).
  { eexists _, _. split; [done|]. apply placeholderError_intro. set_solver. }
  destruct Hdrop as [-> | [w' Hw']].
  { unfold noByte in Hpost. by rewrite Hpost. }
  destruct (Index (drop (idx + 2) (w +:+ "${" +:+ post)) "}") as [e|] eqn:He;
    [|done].
  destruct (expandSinglePlaceholder _ lookup) as [q [expanded|err]] eqn:Hs.
  - rewrite Hw' in He |- *.
    destruct (drop_after_byte "}" w' ("${" +:+ post) e) as [w'' Hw''].
    { by apply (noByte_app _ "${" post). }
    { done. }
    rewrite Hw''.
    destruct (IH w'' ((res +:+ take idx (w +:+ "${" +:+ post)) +:+ expanded))
      as (q' & e' & Hloop & He').
    { apply (f_equal String.length) in Hw', Hw''.
      rewrite drop_length in Hw', Hw''. lia. }
    rewrite Hloop. eauto.
  - eexists _, _. split; [done|]. by eapply expandSinglePlaceholder_Err.
Qed.

(** The loop never runs out of rounds: with [fuel] above the length of
    what is left to scan, the fall-through branch is not reached. *)
Lemma expandLoop_terminates fuel rest res lookup q :
  (String.length rest < fuel)%nat →
  expandLoop fuel rest res lookup ≠ (q, Err (External "unreachable")).
Proof.
  revert rest res q. induction fuel as [|fuel IH]; intros rest res q Hfuel; [lia|].
  cbn [expandLoop]. destruct (Index rest "${") as [idx|] eqn:Hidx; [|done].
  destruct (Index (drop (idx + 2) rest) "}") as [e|] eqn:He; [|done].
  destruct (expandSinglePlaceholder _ lookup) as [q1 [expanded|err]] eqn:Hs.
  - destruct (expandLoop fuel _ _ lookup) as [q2 r] eqn:Hloop.
    intros [= _ ->]. eapply IH; [|exact Hloop].
    apply Index_bound in Hidx. rewrite !drop_length. simpl in Hidx. lia.
  - intros [= _ ->]. apply expandSinglePlaceholder_Err in Hs as (? & ? & ? & _).
    done.
Qed.

End expand_facts.

Section placeholder_body_facts.
Implicit Types (lookup : lookupFn) (source key d : string).

Local Abbreviation TL := (TrimLeftFunc isSpace).
Local Abbreviation TR := (TrimRightFunc isSpace).

Lemma TrimSpace_nonempty_left s : TrimSpace s ≠ "" → TL s ≠ "".
Proof. unfold TrimSpace. by intros H Hs; rewrite Hs in H. Qed.

Lemma TrimSpace_nonempty_right s : TrimSpace s ≠ "" → TR s ≠ "".
Proof. rewrite TrimSpace_alt. by intros H Hs; rewrite Hs in H. Qed.

Lemma TrimSpace_TL s : TrimSpace (TL s) = TrimSpace s.
Proof. unfold TrimSpace. by rewrite TL_idem. Qed.

Lemma TrimSpace_TR s : TrimSpace (TR s) = TrimSpace s.
Proof. rewrite !TrimSpace_alt. by rewrite TR_idem. Qed.

Lemma TL_body source t : TL source ≠ "" → TL (TL source +:+ t) = TL source +:+ t.
Proof. intros Hs. rewrite TL_app; by rewrite TL_idem. Qed.

Lemma TrimSpace_body_nodef source key :
  TL source ≠ "" → TR key ≠ "" →
  TrimSpace (source +:+ String "." key) = TL source +:+ String "." (TR key).
Proof.
  intros Hs Hk. unfold TrimSpace. rewrite TL_app by done.
  rewrite TR_app; by rewrite TR_keep.
Qed.

Lemma TrimSpace_body_def source key d :
  TL source ≠ "" →
  TrimSpace (source +:+ String "." (key +:+ String "|" d))
  = TL source +:+ String "." (key +:+ String "|" (TR d)).
Proof.
  intros Hs. unfold TrimSpace. rewrite TL_app by done.
  assert (TR (key +:+ String "|" d) = key +:+ String "|" (TR d)) as Hk.
  { rewrite TR_app; by rewrite TR_keep. }
  rewrite TR_app; rewrite TR_keep by done; rewrite Hk; [done|by destruct key].
Qed.

(** The tail of [expandSinglePlaceholder], once the expression is cut
    into its trimmed main part and default. *)
Lemma expandSinglePlaceholder_body source key (def : option string) lookup :
  noByte "." source → noByte "|" source → noByte "|" key →
  TrimSpace source ≠ "" → TrimSpace key ≠ "" →
  expandSinglePlaceholder (placeholderBody source key def) lookup =
    ([lookupName (TrimSpace source) (TrimSpace key)],
     Ok (placeholderValue lookup (TrimSpace source) (TrimSpace key)
           (TrimSpace <$> def))).
Proof.
  intros Hdot Hbar Hkbar Hsrc Hkey.
  pose proof (TrimSpace_nonempty_left _ Hsrc) as HS.
  pose proof (TrimSpace_nonempty_right _ Hkey) as HK.
  destruct (TL_head isSpace source HS) as (c0 & r0 & Hhead & Hc0).
  assert (HdotS : noByte "." (TL source)) by by apply noByte_TrimLeft.
  assert (HbarS : noByte "|" (TL source)) by by apply noByte_TrimLeft.
  assert (HbarK : noByte "|" (TR key)) by by apply noByte_TrimRight.
  (* the part of the function after the main part and default are known *)
  assert (Htail : ∀ rawExpr defValue,
    match Index (TL source +:+ String "." (TR key)) "." with
    | None | Some O =>
        ([], Err (Errorf "invalid placeholder (missing dot): %q" [rawExpr] None))
    | Some dot =>
        let source' := TrimSpace (take dot (TL source +:+ String "." (TR key))) in
        let key' := TrimSpace (drop (dot + 1) (TL source +:+ String "." (TR key))) in
        if decide (source' = "" ∨ key' = "") then
          ([], Err (Errorf "invalid placeholder: %q" [rawExpr] None))
        else
          let envName :=
            if decide (source' = "env") then key'
            else ToUpper source' +:+ "_" +:+ ToUpper key' in
          match lookup envName with
          | None =>
              ([envName], Ok (if decide (defValue ≠ "") then defValue else ""))
          | Some val => ([envName], Ok val)
          end
    end =
    ([lookupName (TrimSpace source) (TrimSpace key)],
     Ok (match lookup (lookupName (TrimSpace source) (TrimSpace key)) with
         | Some v => v
         | None => defValue
         end) : result string)).
  { intros rawExpr defValue. rewrite Index_byte_app by done.
    destruct (String.length (TL source)) as [|n] eqn:Hlen.
    { by rewrite Hhead in Hlen. }
    rewrite <- Hlen. cbn zeta.
    rewrite take_app_length, drop_app_length. cbn [drop].
    rewrite TrimSpace_TL, TrimSpace_TR.
    rewrite decide_False by naive_solver.
    fold (lookupName (TrimSpace source) (TrimSpace key)).
    destruct (lookup _); [done|]. case_decide as Hd; [done|]. by rewrite Hd. }
  unfold expandSinglePlaceholder, placeholderBody, placeholderValue.
  destruct def as [d|].
  - change (source +:+ "." +:+ key +:+ "|" +:+ d)
      with (source +:+ String "." (key +:+ String "|" d)).
    rewrite TrimSpace_body_def by done.
    assert (TL source +:+ String "." (key +:+ String "|" (TR d))
            = (TL source +:+ String "." key) +:+ String "|" (TR d)) as Hassoc.
    { by rewrite app_assoc. }
    assert (Hnb : noByte "|" (TL source +:+ String "." key)).
    { apply noByte_app. split; [done|]. by apply noByte_cons. }
    rewrite decide_False by (rewrite Hhead; done).
    unfold Contains, SplitN2. rewrite Hassoc, Index_byte_app by done.
    rewrite bool_decide_eq_true_2 by done.
    rewrite take_app_length, drop_app_length. cbn [drop String.length].
    rewrite TrimSpace_TR.
    assert (TrimSpace (TL source +:+ String "." key)
            = TL source +:+ String "." (TR key)) as ->.
    { unfold TrimSpace. rewrite TL_body by done.
      rewrite TR_app; by rewrite TR_keep. }
    rewrite <- Hassoc. apply Htail.
  - change (source +:+ "." +:+ key +:+ "") with (source +:+ String "." (key +:+ "")).
    rewrite app_nil_r, TrimSpace_body_nodef by done.
    rewrite decide_False by (rewrite Hhead; done).
    assert (Hnb : noByte "|" (TL source +:+ String "." (TR key))).
    { apply noByte_app. split; [done|]. by apply noByte_cons. }
    unfold Contains. unfold noByte in Hnb. rewrite Hnb.
    rewrite bool_decide_eq_false_2 by (by intros [? ?]).
    apply Htail.
Qed.

End placeholder_body_facts.

(** C8: on an input with no placeholder opening, [Expand] returns the
    input and looks nothing up; on an input with an opening that no
    closing brace follows, it returns a placeholder error. *)
Theorem Expand_fast_path_and_unterminated (lookup : lookupFn) :
  (∀ input, Contains input "${" = false → Expand input lookup = ([], Ok input))
  ∧ (∀ pre post,
       noByte "}" post →
       ∃ q e, Expand (pre +:+ "${" +:+ post) lookup = (q, Err e) ∧
              placeholderError e).
Proof.
  split.
  - intros input Hc. unfold Expand. rewrite Hc. by rewrite orb_true_r.
  - intros pre post Hpost. unfold Expand.
    destruct (Index_open_app pre post) as (idx & Hidx & _).
    assert (Contains (pre +:+ "${" +:+ post) "${" = true) as ->.
    { unfold Contains. rewrite Hidx. by apply bool_decide_eq_true_2. }
    rewrite bool_decide_eq_false_2 by (by destruct pre).
    apply expandLoop_unterminated; [done|lia].
Qed.

Lemma Contains_false s sub : Contains s sub = false → Index s sub = None.
Proof.
  unfold Contains. intros H%bool_decide_eq_false.
  destruct (Index s sub); [|done]. by destruct H.
Qed.



(* ===================================================================== *)
(** * Further properties of the package                                  *)
(* ===================================================================== *)

(** ** Letter case and white space *)

Section case_facts.
Implicit Types (s t : string) (c : ascii).

Lemma lowerByte_idem c : lowerByte (lowerByte c) = lowerByte c.
Proof. by destruct c as [[] [] [] [] [] [] [] []]. Qed.

Lemma isSpace_lowerByte c : isSpace (lowerByte c) = isSpace c.
Proof. by destruct c as [[] [] [] [] [] [] [] []]. Qed.

Lemma ToLower_idem s : ToLower (ToLower s) = ToLower s.
Proof.
  unfold ToLower. induction s as [|c s IH]; [done|].
  simpl. by rewrite lowerByte_idem, IH.
Qed.

Lemma ToLower_app s t : ToLower (s +:+ t) = ToLower s +:+ ToLower t.
Proof.
  unfold ToLower. induction s as [|c s IH]; [done|].
  rewrite app_cons. simpl. by rewrite IH, app_cons.
Qed.

Lemma TrimLeft_ToLower s :
  TrimLeftFunc isSpace (ToLower s) = ToLower (TrimLeftFunc isSpace s).
Proof.
  unfold ToLower. induction s as [|c s IH]; [done|].
  simpl. rewrite isSpace_lowerByte. by destruct (isSpace c).
Qed.

Lemma TrimRight_ToLower s :
  TrimRightFunc isSpace (ToLower s) = ToLower (TrimRightFunc isSpace s).
Proof.
  unfold ToLower. induction s as [|c s IH]; [done|].
  simpl. rewrite IH, isSpace_lowerByte.
  destruct (TrimRightFunc isSpace s); simpl; [by destruct (isSpace c)|done].
Qed.

Lemma TrimSpace_ToLower s : TrimSpace (ToLower s) = ToLower (TrimSpace s).
Proof. unfold TrimSpace. by rewrite TrimLeft_ToLower, TrimRight_ToLower. Qed.

Lemma normalizeFormat_lower_trimmed f :
  ToLower (TrimSpace (normalizeFormat f)) = normalizeFormat f.
Proof.
  unfold normalizeFormat. case_decide; [done|].
  by rewrite <- TrimSpace_ToLower, ToLower_idem, TrimSpace_ToLower, TrimSpace_idem.
Qed.

Lemma normalizeFormat_fixed f :
  normalizeFormat (normalizeFormat f) = normalizeFormat f.
Proof.
  unfold normalizeFormat at 1. rewrite normalizeFormat_lower_trimmed.
  rewrite decide_False; [done|]. unfold normalizeFormat. by case_decide.
Qed.

End case_facts.

(** ** Format tags *)

(** X1: [normalizeFormat] is idempotent, its result is trimmed and
    lower-case, and it never returns [yml]. *)
Theorem normalizeFormat_idempotent (format : string) :
  normalizeFormat (normalizeFormat format) = normalizeFormat format
  ∧ ToLower (normalizeFormat format) = normalizeFormat format
  ∧ TrimSpace (normalizeFormat format) = normalizeFormat format
  ∧ normalizeFormat format ≠ "yml".
Proof.
  assert (Hyml : normalizeFormat format ≠ "yml").
  { unfold normalizeFormat. by case_decide. }
  assert (Hfix := normalizeFormat_lower_trimmed format).
  split_and!; [|..|done].
  - unfold normalizeFormat at 1. rewrite Hfix. by rewrite decide_False.
  - rewrite <- Hfix at 1. by rewrite ToLower_idem.
  - rewrite <- Hfix at 1. by rewrite <- TrimSpace_ToLower, TrimSpace_idem, TrimSpace_ToLower.
Qed.

Section ext_facts.
Implicit Types (s base ext : string) (c d : ascii).

Lemma noByte_Contains c s : noByte c s → Contains s (String c "") = false.
Proof.
  unfold noByte, Contains. intros ->. apply bool_decide_eq_false_2. by intros [? ?].
Qed.

Lemma Ext_nodot s : noByte "." s → Ext s = "".
Proof.
  induction s as [|c s IH]; [done|]. intros [Hc Hs]%noByte_cons.
  simpl. rewrite (IH Hs). destruct (Ascii.eqb_spec c "."); [congruence|done].
Qed.

Lemma Ext_app_dot base ext :
  noByte "." ext → noByte "/" ext →
  Ext (base +:+ String "." ext) = String "." ext.
Proof.
  intros Hdot Hsep. induction base as [|c base IH].
  - change ("" +:+ String "." ext) with (String "." ext).
    cbn [Ext]. rewrite (Ext_nodot _ Hdot).
    change (Contains ext "/") with (Contains ext (String "/" "")).
    by rewrite (noByte_Contains _ _ Hsep).
  - rewrite app_cons. cbn [Ext]. by rewrite IH.
Qed.

Lemma noByte_ToLower c s :
  lowerByte c = c → noByte c (ToLower s) → noByte c s.
Proof.
  intros Hc. unfold ToLower. induction s as [|d s IH]; [done|].
  simpl. rewrite !noByte_cons. intros [Hne Hs]. split; [|by apply IH].
  intros ->. by rewrite Hc in Hne.
Qed.

Lemma detectFormatFromPath_ext base ext tag :
  ToLower ext = tag →
  tag ∈ ["json"; "yaml"; "yml"; "toml"] →
  detectFormatFromPath (base +:+ "." +:+ ext) = Ok (normalizeFormat tag).
Proof.
  intros Hext Htag.
  assert (noByte "." ext ∧ noByte "/" ext) as [Hdot Hsep].
  { split; (apply noByte_ToLower; [reflexivity|]);
      rewrite Hext; set_unfold in Htag;
      destruct Htag as [->|[->|[->|[->|[]]]]]; reflexivity. }
  unfold detectFormatFromPath.
  change (base +:+ "." +:+ ext) with (base +:+ String "." ext).
  rewrite Ext_app_dot by done.
  rewrite <- TrimSpace_ToLower.
  change (ToLower (String "." ext)) with (String "." (ToLower ext)). rewrite Hext.
  set_unfold in Htag. destruct Htag as [->|[->|[->|[->|[]]]]]; reflexivity.
Qed.

End ext_facts.

(** X2: [detectFormatFromPath] looks at the last extension only,
    whatever its letter case and whatever comes before it: a path ending
    in [.json], [.yaml], [.yml] or [.toml] gives the normalized tag. *)
Theorem detectFormatFromPath_by_extension (base ext tag : string) :
  ToLower ext = tag →
  tag ∈ ["json"; "yaml"; "yml"; "toml"] →
  detectFormatFromPath (base +:+ "." +:+ ext) = Ok (normalizeFormat tag).
Proof. apply detectFormatFromPath_ext. Qed.

Lemma detectFormatFromPath_by_extension_witness :
  detectFormatFromPath "conf.d/app.YML" = Ok "yaml".
Proof.
  apply (detectFormatFromPath_by_extension "conf.d/app" "YML" "yml");
    [reflexivity|set_solver].
Defined.

(** X3: a path with no dot at all has no extension, and
    [detectFormatFromPath] reports the missing extension with the path. *)
Theorem detectFormatFromPath_no_extension (path : string) :
  noByte "." path →
  detectFormatFromPath path =
    Err (Errorf "FileSource: cannot detect format from path %q: missing file extension"
           [path] None).
Proof. intros Hdot. unfold detectFormatFromPath. by rewrite (Ext_nodot _ Hdot). Qed.

Lemma detectFormatFromPath_no_extension_witness :
  detectFormatFromPath "conf/app" =
    Err (Errorf "FileSource: cannot detect format from path %q: missing file extension"
           ["conf/app"] None).
Proof. apply detectFormatFromPath_no_extension. reflexivity. Defined.

(** ** The file source *)

Section file_source_facts.
Implicit Types (fs : FileSource) (opts : list FileSourceOption).

Lemma detectFormatFromPath_Ok path f :
  detectFormatFromPath path = Ok f → f ∈ ["json"; "yaml"; "toml"].
Proof.
  unfold detectFormatFromPath. repeat case_decide; intros [= <-]; set_solver.
Qed.

(** What the options keep true of a file source under construction. *)
Let built (path : string) fs : Prop :=
  fsPath fs = TrimSpace path ∧
  (fsFormat fs = "" ∨ normalizeFormat (fsFormat fs) = fsFormat fs) ∧
  (fsName fs = "" ∨ TrimSpace (fsName fs) ≠ "").

Lemma fileMetaOption_built path fs opt :
  fileMetaOption opt → built path fs → built path (opt fs).
Proof.
  intros [[format ->]|[name ->]] (Hp & Hf & Hn).
  - unfold WithFileSourceFormat. case_decide; [done|].
    split_and!; [done| |done]. right. apply normalizeFormat_fixed.
  - unfold WithFileSourceName. case_decide; [done|].
    split_and!; [done..|]. by right.
Qed.

Lemma foldl_options_built path fs opts :
  Forall fileMetaOption opts → built path fs →
  built path (foldl (λ fs opt, opt fs) fs opts).
Proof.
  intros Hopts. revert fs. induction Hopts as [|opt opts Hopt _ IH]; intros fs Hfs.
  - done.
  - simpl. apply IH. by apply fileMetaOption_built.
Qed.

Lemma NewFileSource_built path opts :
  Forall fileMetaOption opts →
  let fs := NewFileSource path opts in
  fsPath fs = TrimSpace path ∧
  (fsFormat fs = "" ∨ normalizeFormat (fsFormat fs) = fsFormat fs) ∧
  (fsName fs = TrimSpace path ∨ TrimSpace (fsName fs) ≠ "").
Proof.
  intros Hopts. unfold NewFileSource.
  destruct (foldl_options_built path
              {| fsPath := TrimSpace path; fsFormat := ""; fsName := "" |} opts Hopts)
    as (Hp & Hf & Hn).
  { split_and!; [done|by left..]. }
  case_decide as Hname; simpl.
  - split_and!; [done..|]. by left.
  - split_and!; [done..|]. destruct Hn; [done|by right].
Qed.

End file_source_facts.

(** X4: a file source built by [NewFileSource] that loads declares a
    format that [normalizeFormat] leaves alone — lower-case, trimmed
    and never [yml] — returns the bytes read, and has a display name
    that is not blank. *)
Theorem FileSourceLoad_metadata
    (path : string) (opts : list FileSourceOption) (readFile : result bytes)
    (data : bytes) (meta : Metadata) :
  Forall fileMetaOption opts →
  FileSourceLoad (NewFileSource path opts) readFile = Ok (data, meta) →
  normalizeFormat (Format meta) = Format meta
  ∧ Format meta ≠ "yml"
  ∧ readFile = Ok data
  ∧ TrimSpace (Source meta) ≠ "".
Proof.
  intros Hopts. destruct (NewFileSource_built path opts Hopts) as (Hp & Hf & Hn).
  unfold FileSourceLoad. case_decide as Hpath; [done|].
  destruct readFile as [data'|e]; [|done]. simpl.
  assert (Hname : TrimSpace (fsName (NewFileSource path opts)) ≠ "").
  { destruct Hn as [-> | Hn]; [|done]. rewrite TrimSpace_idem. by rewrite <- Hp. }
  case_decide as Hformat.
  - destruct (detectFormatFromPath _) as [f|e] eqn:Hd; [|done]. simpl.
    intros [= <- <-]. simpl. apply detectFormatFromPath_Ok in Hd.
    set_unfold in Hd. destruct Hd as [->|[->|[->|[]]]]; by split_and!.
  - simpl. intros [= <- <-]. simpl. destruct Hf as [?|Hf]; [done|].
    split_and!; [done| |done..]. rewrite <- Hf. unfold normalizeFormat. by case_decide.
Qed.

Lemma FileSourceLoad_metadata_witness :
  normalizeFormat "yaml" = "yaml" ∧ ("yaml" : string) ≠ "yml"
  ∧ (Ok [Byte.x61] : result bytes) = Ok [Byte.x61]
  ∧ TrimSpace "base" ≠ "".
Proof.
  apply (FileSourceLoad_metadata " conf/app "
           [WithFileSourceFormat " YML "; WithFileSourceName "base"]
           (Ok [Byte.x61]) [Byte.x61] {| Format := "yaml"; Source := "base" |}).
  - apply Forall_cons. split; [left; by eexists|].
    apply Forall_cons. split; [right; by eexists|]. by apply Forall_nil.
  - reflexivity.
Defined.

Lemma registerAll_merge c decs : merge (registerAll c decs) = merge c.
Proof.
  revert c. induction decs as [|d decs IH]; intros c; [done|].
  rewrite registerAll_cons, IH. unfold WithDecoder. by case_decide.
Qed.

(** X5: a file whose (trimmed) path ends in [.yaml] or [.yml], in any
    letter case, and that is given no explicit format is handed by [Load]
    to a decoder registered under the tag [yaml]; its display name is the
    trimmed path, and with the default strategy the decoded tree is
    merged into the trees of the sources before it. *)
Theorem Load_yaml_file
    (decs : list Decoder) (path base ext : string) (data : bytes) (tmp : tree) :
  TrimSpace path = base +:+ "." +:+ ext →
  ToLower ext ∈ ["yaml"; "yml"] →
  (∃ d, d ∈ decs ∧ ToLower (DecoderFormat d) = "yaml") →
  ∃ dec, dec ∈ decs ∧ ToLower (DecoderFormat dec) = "yaml" ∧
    loadSource (configWithDecoders decs) tmp
      (fileConfigSource (NewFileSource path []) (Ok data)) =
      match Decode dec data with
      | Ok m => Merge tmp m
      | Err e =>
          Err (Errorf "decode source %q failed: %w" [TrimSpace path] (Some e))
      end.
Proof.
  intros Hpath Hext (d & Hd & Htag).
  destruct (decoders (configWithDecoders decs) !! "yaml") as [dec|] eqn:Hdec.
  2: { pose proof (proj1 (configWithDecoders_None decs "yaml") Hdec) as Hnone.
       destruct (Hnone d Hd) as [He|He].
       - by rewrite Htag in He.
       - by rewrite Htag in He. }
  exists dec. destruct (configWithDecoders_Some _ _ _ Hdec) as [Hin Hdtag].
  split_and!; [done..|].
  assert (Hdetect : detectFormatFromPath (TrimSpace path) = Ok "yaml").
  { rewrite Hpath.
    rewrite (detectFormatFromPath_ext base ext (ToLower ext) eq_refl);
      [|set_solver].
    set_unfold in Hext. by destruct Hext as [->|[->|[]]]. }
  assert (Hne : TrimSpace path ≠ "").
  { rewrite Hpath. intros H. apply (f_equal String.length) in H.
    rewrite app_length in H. simpl in H. lia. }
  unfold loadSource, fileConfigSource, FileSourceLoad, NewFileSource. simpl.
  rewrite decide_False by done. simpl. rewrite Hdetect. simpl.
  change (ToLower "yaml") with "yaml". rewrite Hdec.
  destruct (Decode dec data) as [m|e]; [|done].
  rewrite configWithDecoders_registerAll, registerAll_merge. done.
Qed.

Lemma Load_yaml_file_witness :
  ∃ dec, dec ∈ [Examples.constDecoder "YAML" ∅] ∧ ToLower (DecoderFormat dec) = "yaml" ∧
    loadSource (configWithDecoders [Examples.constDecoder "YAML" ∅]) ∅
      (fileConfigSource (NewFileSource " app.YML" []) (Ok [])) =
      match Decode dec [] with
      | Ok m => Merge ∅ m
      | Err e => Err (Errorf "decode source %q failed: %w" [TrimSpace " app.YML"] (Some e))
      end.
Proof.
  apply (Load_yaml_file _ " app.YML" "app" "YML" [] ∅).
  - reflexivity.
  - apply (bool_decide_unpack _). by vm_compute.
  - eexists. split; [by left|reflexivity].
Defined.

(** ** The environment source *)

Section env_source_facts.
Implicit Types (s k v kv : string) (c : ascii).

Lemma Index_byte_Some c s i :
  Index s (String c "") = Some i →
  s = take i s +:+ String c (drop (i + 1) s) ∧ noByte c (take i s)
  ∧ String.length (take i s) = i.
Proof.
  revert i. induction s as [|d s IH]; intros i; [done|].
  rewrite Index_byte_cons. destruct (Ascii.eqb_spec c d) as [<-|Hne].
  - intros [= <-]. done.
  - destruct (Index s (String c "")) as [j|] eqn:Hj; [|done]. intros [= <-].
    destruct (IH j eq_refl) as (Hs & Hno & Hlen). simpl.
    rewrite app_cons, <- Hs. split_and!; [done| |by rewrite Hlen].
    by apply noByte_cons.
Qed.

End env_source_facts.

(** X6: [splitEnvPair] cuts at the first [=]: what it returns puts the
    pair back together, with a key that is not empty and holds no [=];
    and every pair made of such a key, [=] and any value is split into
    exactly that key and value. *)
Theorem splitEnvPair_round_trip (kv key val : string) :
  (splitEnvPair kv = Some (key, val) →
     kv = key +:+ "=" +:+ val ∧ key ≠ "" ∧ noByte "=" key)
  ∧ (key ≠ "" → noByte "=" key →
     splitEnvPair (key +:+ "=" +:+ val) = Some (key, val)).
Proof.
  split.
  - unfold splitEnvPair. destruct (Index kv "=") as [[|i]|] eqn:Hi; [done| |done].
    intros [= <- <-]. apply Index_byte_Some in Hi as (Hs & Hno & Hlen).
    split_and!; [done| |done]. intros He.
    change (take (S i) kv = "") in He. by rewrite He in Hlen.
  - intros Hne Hno. unfold splitEnvPair.
    change (key +:+ "=" +:+ val) with (key +:+ String "=" val).
    rewrite Index_byte_app by done.
    destruct (String.length key) as [|n] eqn:Hlen; [by destruct key|].
    rewrite <- Hlen. by rewrite take_app_length, drop_app_length.
Qed.

Lemma normalizeParts_segments normalizer rawParts seg :
  seg ∈ normalizeParts normalizer rawParts →
  seg ≠ "" ∧ ∃ p, p ∈ rawParts ∧ seg = normalizer p.
Proof.
  induction rawParts as [|p rest IH]; simpl; [by intros ?%elem_of_nil|].
  case_decide as Hn.
  - intros (? & q & ? & ?)%IH. split; [done|]. exists q. split; [by right|done].
  - intros [->|Hin]%elem_of_cons.
    + split; [done|]. exists p. split; [by left|done].
    + destruct (IH Hin) as (? & q & ? & ?). split; [done|].
      exists q. split; [by right|done].
Qed.

Lemma defaultEnvKeyNormalizer_idem s :
  defaultEnvKeyNormalizer (defaultEnvKeyNormalizer s) = defaultEnvKeyNormalizer s.
Proof.
  unfold defaultEnvKeyNormalizer.
  by rewrite <- TrimSpace_ToLower, ToLower_idem, TrimSpace_ToLower, TrimSpace_idem.
Qed.


Section insert_facts.
Implicit Types (m cur root : tree) (path rest : list string) (v : value).

Lemma getByPathFrom_cons (cur : value) p rest :
  rest ≠ [] →
  getByPathFrom cur (p :: rest) =
    match toStringMap cur with
    | None => None
    | Some m =>
        match m !! p with
        | None => None
        | Some v => getByPathFrom v rest
        end
    end.
Proof. by destruct rest. Qed.

Lemma getByPathFrom_view (v1 v2 : value) path :
  toStringMap v1 = toStringMap v2 → getByPathFrom v1 path = getByPathFrom v2 path.
Proof. intros H. destruct path as [|p rest]; [done|]. simpl. by rewrite H. Qed.

Lemma getByPathFrom_scalar (v : value) path :
  toStringMap v = None → getByPathFrom v path = None.
Proof. intros H. destruct path; simpl; by rewrite ?H. Qed.

Lemma getByPathFrom_empty path : getByPathFrom (VMap ∅) path = None.
Proof. destruct path; simpl; by rewrite ?lookup_empty. Qed.

Lemma insertNestedFrom_cons copied cur p rest v :
  rest ≠ [] →
  insertNestedFrom copied cur (p :: rest) v =
    match cur !! p with
    | Some (VMap m) => <[p := VMap (insertNestedFrom false m rest v)]> cur
    | Some (VAnyMap strs others) =>
        <[p := VAnyMap (insertNestedFrom true strs rest v) others]> cur
    | _ =>
        if copied then cur
        else <[p := VMap (insertNestedFrom false ∅ rest v)]> cur
    end.
Proof. by destruct rest. Qed.

Lemma insertNestedFrom_lookup_ne copied cur p rest v k :
  k ≠ p → insertNestedFrom copied cur (p :: rest) v !! k = cur !! k.
Proof.
  intros Hne. destruct rest as [|q rest].
  - simpl. destruct copied; [done|by rewrite lookup_insert_ne].
  - rewrite insertNestedFrom_cons by done.
    destruct (cur !! p) as [[]|]; try (by rewrite lookup_insert_ne);
      destruct copied; by rewrite ?lookup_insert_ne.
Qed.

Lemma insertNestedFrom_round_trip path m v :
  path ≠ [] → pathPlain m path →
  getByPathFrom (VMap (insertNestedFrom false m path v)) path = Some v.
Proof.
  revert m. induction path as [|p rest IH]; intros m Hne Hplain; [done|].
  destruct rest as [|q rest].
  { simpl. by rewrite lookup_insert_eq. }
  rewrite insertNestedFrom_cons, getByPathFrom_cons by done.
  cbn [pathPlain] in Hplain. cbn [toStringMap].
  destruct (m !! p) as [[| | | | | |m'|strs others|]|] eqn:Hp;
    try (rewrite lookup_insert_eq; apply IH; [done|]; cbn [pathPlain];
         by rewrite lookup_empty).
  - rewrite lookup_insert_eq. by apply IH.
  - done.
Qed.

Lemma insertNestedFrom_frame common copied m a b r1 r2 v :
  a ≠ b →
  getByPathFrom (VMap (insertNestedFrom copied m (common ++ a :: r1) v))
    (common ++ b :: r2)
  = getByPathFrom (VMap m) (common ++ b :: r2).
Proof.
  intros Hab%not_eq_sym. revert copied m.
  induction common as [|p common IH]; intros copied m.
  - simpl app. destruct r2 as [|q r2].
    + cbn [getByPathFrom toStringMap]. by rewrite insertNestedFrom_lookup_ne.
    + rewrite !getByPathFrom_cons by done. cbn [toStringMap].
      by rewrite insertNestedFrom_lookup_ne.
  - rewrite <- !app_comm_cons.
    assert (common ++ a :: r1 ≠ []) by by destruct common.
    assert (common ++ b :: r2 ≠ []) by by destruct common.
    rewrite insertNestedFrom_cons, !getByPathFrom_cons by done. cbn [toStringMap].
    destruct (m !! p) as [[| | | | | |m'|strs others|]|] eqn:Hp;
      try (destruct copied; [by rewrite Hp|]; rewrite lookup_insert_eq, IH;
           rewrite getByPathFrom_empty; symmetry; by apply getByPathFrom_scalar).
    + rewrite lookup_insert_eq. apply IH.
    + rewrite lookup_insert_eq.
      rewrite (getByPathFrom_view _ (VMap (insertNestedFrom true strs (common ++ a :: r1) v)))
        by done.
      rewrite IH. by apply getByPathFrom_view.
    + destruct copied; [by rewrite Hp|]. rewrite lookup_insert_eq, IH.
      by rewrite getByPathFrom_empty.
Qed.

End insert_facts.

(** X8: what [insertNestedValue] stores under a non-empty path is what
    a lookup along that path then finds, whatever scalars stood in the
    way, provided no [map[any]any] lies on the path. *)
Theorem insertNestedValue_round_trip
    (root : tree) (path : list string) (v : value) :
  path ≠ [] →
  pathPlain root path →
  getByPathFrom (VMap (insertNestedValue root path v)) path = Some v.
Proof. apply insertNestedFrom_round_trip. Qed.

Lemma insertNestedValue_round_trip_witness :
  getByPathFrom
    (VMap (insertNestedValue {[ "db" := VString "sqlite" ]} ["db"; "host"]
             (VString "127.0.0.1")))
    ["db"; "host"]
  = Some (VString "127.0.0.1").
Proof.
  apply insertNestedValue_round_trip; [done|].
  cbn [pathPlain]. by rewrite lookup_singleton_eq.
Defined.

(** X9: [insertNestedValue] leaves every path alone that parts from the
    written one at some key: a lookup along it finds what it found
    before. *)
Theorem insertNestedValue_frame
    (root : tree) (common : list string) (a b : string) (r1 r2 : list string)
    (v : value) :
  a ≠ b →
  getByPathFrom (VMap (insertNestedValue root (common ++ a :: r1) v))
    (common ++ b :: r2)
  = getByPathFrom (VMap root) (common ++ b :: r2).
Proof. apply insertNestedFrom_frame. Qed.

Lemma insertNestedValue_frame_witness :
  getByPathFrom
    (VMap (insertNestedValue {[ "db" := VMap {[ "port" := VInt 3306 ]} ]}
             (["db"] ++ "host" :: []) (VString "127.0.0.1")))
    (["db"] ++ "port" :: [])
  = getByPathFrom (VMap {[ "db" := VMap {[ "port" := VInt 3306 ]} ]})
      (["db"] ++ "port" :: []).
Proof. by apply insertNestedValue_frame. Defined.

Section env_tree_facts.
Implicit Types (es : EnvSource) (m root : tree) (path q : list string).

Lemma HasPrefix_take s p i : HasPrefix (take i s) p = true → HasPrefix s p = true.
Proof.
  revert s i. induction p as [|a p IH]; intros [|b s] [|i]; simpl; try done.
  intros [-> Hp]%andb_prop. simpl. by eapply IH.
Qed.

Lemma envStep_skip es root kv :
  noByte "=" kv ∨ (esPrefix es ≠ "" ∧ HasPrefix kv (esPrefix es) = false) →
  envStep es root kv = root.
Proof.
  unfold envStep, splitEnvPair. intros [Hno|[Hp Hkv]].
  { unfold noByte in Hno. by rewrite Hno. }
  destruct (Index kv "=") as [[|i]|]; [done| |done].
  rewrite bool_decide_eq_true_2 by done.
  destruct (HasPrefix (take (S i) kv) (esPrefix es)) eqn:Ht; [|done].
  apply HasPrefix_take in Ht. congruence.
Qed.

Lemma pathPlain_insert_scalar m path v :
  (∀ q, pathPlain m q) → toStringMap v = None →
  ∀ q, pathPlain (insertNestedFrom false m path v) q.
Proof.
  intros Hm Hv. revert m Hm. induction path as [|p rest IH]; intros m Hm q; [done|].
  destruct q as [|q0 qr]; [done|]. cbn [pathPlain].
  destruct (decide (q0 = p)) as [->|Hne].
  2: { rewrite insertNestedFrom_lookup_ne by done. apply (Hm (q0 :: qr)). }
  destruct rest as [|r rest].
  { simpl. rewrite lookup_insert_eq. by destruct v. }
  rewrite insertNestedFrom_cons by done.
  assert (Hempty : ∀ q', pathPlain ∅ q').
  { intros [|? ?]; [done|]. cbn [pathPlain]. by rewrite lookup_empty. }
  destruct (m !! p) as [[| | | | | |m'|strs others|]|] eqn:Hp;
    try (rewrite lookup_insert_eq; by apply IH).
  - rewrite lookup_insert_eq. apply IH. intros q'.
    specialize (Hm (p :: q')). cbn [pathPlain] in Hm. by rewrite Hp in Hm.
  - specialize (Hm [p; p]). cbn [pathPlain] in Hm. by rewrite Hp in Hm.
Qed.

Lemma envStep_plain es root kv :
  (∀ s, toStringMap (esValueParser es s) = None) →
  (∀ q, pathPlain root q) → ∀ q, pathPlain (envStep es root kv) q.
Proof.
  intros Hparser Hroot. unfold envStep.
  repeat (case_match || case_decide); try done.
  all: by apply pathPlain_insert_scalar.
Qed.

Lemma envTree_plain es envList :
  (∀ s, toStringMap (esValueParser es s) = None) →
  ∀ q, pathPlain (envTree es envList) q.
Proof.
  intros Hparser. unfold envTree.
  induction envList as [|kv envList IH] using rev_ind.
  - intros [|? ?]; [done|]. cbn [pathPlain foldl]. by rewrite lookup_empty.
  - rewrite foldl_snoc. by apply envStep_plain.
Qed.

End env_tree_facts.

(** X10: [EnvSource.Load] ignores an environment entry with no [=], and
    one that does not start with the configured prefix: the tree is
    the one built without that entry. *)
Theorem envTree_skips_entry (es : EnvSource) (before after : list string) (kv : string) :
  noByte "=" kv ∨ (esPrefix es ≠ "" ∧ HasPrefix kv (esPrefix es) = false) →
  envTree es (before ++ kv :: after) = envTree es (before ++ after).
Proof.
  intros Hskip. unfold envTree. rewrite !foldl_app. simpl.
  by rewrite envStep_skip.
Qed.

Lemma envTree_skips_entry_witness :
  envTree
    {| esPrefix := "MYAPP_"; esStripPrefix := true; esSeparator := "__";
       esName := "env"; esValueParser := VString;
       esKeyNormalizer := defaultEnvKeyNormalizer |}
    (["MYAPP_DB__HOST=db"] ++ "HOME=/root" :: [])
  = envTree
    {| esPrefix := "MYAPP_"; esStripPrefix := true; esSeparator := "__";
       esName := "env"; esValueParser := VString;
       esKeyNormalizer := defaultEnvKeyNormalizer |}
    (["MYAPP_DB__HOST=db"] ++ []).
Proof. apply envTree_skips_entry. right. by split. Defined.

(** X11: the last entry of the environment decides the leaf at its path:
    when [KEY=VALUE] passes the prefix filter and its key, with the
    prefix stripped if so configured and trimmed, is not empty and
    gives a non-empty path, a lookup along that path in the tree [EnvSource.Load] builds
    finds the parsed value, for a parser that yields scalars. *)
Theorem envTree_last_entry
    (es : EnvSource) (envList : list string) (kv key val : string) :
  (∀ s, toStringMap (esValueParser es s) = None) →
  splitEnvPair kv = Some (key, val) →
  esPrefix es = "" ∨ HasPrefix key (esPrefix es) = true →
  let stripped :=
    if bool_decide (esPrefix es ≠ "") && esStripPrefix es
    then TrimPrefix key (esPrefix es) else key in
  let path := buildEnvPath (TrimSpace stripped) (esSeparator es) (esKeyNormalizer es) in
  TrimSpace stripped ≠ "" →
  path ≠ [] →
  getByPathFrom (VMap (envTree es (envList ++ [kv]))) path
  = Some (esValueParser es val).
Proof.
  intros Hparser Hsplit Hprefix stripped path Hne Hpath.
  unfold envTree. rewrite foldl_snoc. fold (envTree es envList).
  unfold envStep. rewrite Hsplit.
  assert (bool_decide (esPrefix es ≠ "") && negb (HasPrefix key (esPrefix es)) = false)
    as ->.
  { destruct Hprefix as [-> | ->]; [done|]. by rewrite andb_false_r. }
  fold stripped. rewrite decide_False by done. fold path.
  destruct path as [|p rest] eqn:Hp; [done|].
  apply insertNestedFrom_round_trip; [done|]. by apply envTree_plain.
Qed.

Lemma defaultEnvValueParser_scalar parseFloat parseDuration raw :
  toStringMap (defaultEnvValueParser parseFloat parseDuration raw) = None.
Proof.
  unfold defaultEnvValueParser.
  repeat (case_decide || case_bool_decide || case_match); done.
Qed.

Lemma envTree_last_entry_witness :
  getByPathFrom
    (VMap (envTree sampleEnvSource (["MYAPP_DB=sqlite"] ++ ["MYAPP_DB__PORT= 3306"])))
    ["db"; "port"]
  = Some (VInt 3306).
Proof.
  apply (envTree_last_entry sampleEnvSource ["MYAPP_DB=sqlite"]
           "MYAPP_DB__PORT= 3306" "MYAPP_DB__PORT" " 3306").
  - intros s. apply defaultEnvValueParser_scalar.
  - reflexivity.
  - by right.
  - discriminate.
  - discriminate.
Defined.

(** ** More on merging, loading and reading *)

(** X12: merging into the empty tree gives the source tree, and merging
    the empty tree into a tree gives that tree. *)
Theorem Merge_empty (t : tree) : Merge ∅ t = Ok t ∧ Merge t ∅ = Ok t.
Proof.
  split; unfold Merge; f_equal; try done.
  all: apply map_eq; intros k; rewrite mergeInto_lookup, ?lookup_empty.
  all: by destruct (t !! k).
Qed.

Section path_facts.
Implicit Types (s p q : string) (sep : ascii).

Lemma Split_nonempty s sep : Split s sep ≠ [].
Proof.
  induction s as [|c s IH]; [done|]. simpl.
  destruct (Ascii.eqb c sep); [done|]. by destruct (Split s sep).
Qed.

Lemma Split_noByte s sep : noByte sep s → Split s sep = [s].
Proof.
  induction s as [|c s IH]; [done|]. intros [Hne Hs]%noByte_cons.
  simpl. destruct (Ascii.eqb_spec c sep) as [->|_]; [done|]. by rewrite (IH Hs).
Qed.

Lemma Split_app_sep p q sep :
  Split (p +:+ String sep q) sep = Split p sep ++ Split q sep.
Proof.
  induction p as [|c p IH].
  - change ("" +:+ String sep q) with (String sep q). simpl.
    by rewrite Ascii.eqb_refl.
  - rewrite app_cons. simpl. rewrite IH.
    destruct (Ascii.eqb c sep); [done|].
    pose proof (Split_nonempty p sep). by destruct (Split p sep).
Qed.

Lemma getByPathFrom_app (cur : value) (p1 p2 : list string) :
  p1 ≠ [] → p2 ≠ [] →
  getByPathFrom cur (p1 ++ p2) =
    match getByPathFrom cur p1 with
    | Some v => getByPathFrom v p2
    | None => None
    end.
Proof.
  intros H1 H2. revert cur. induction p1 as [|k p1 IH]; intros cur; [done|].
  destruct p1 as [|k' p1].
  - simpl app. rewrite getByPathFrom_cons by done. simpl.
    destruct (toStringMap cur) as [m|]; [|done]. by destruct (m !! k).
  - rewrite <- app_comm_cons, !getByPathFrom_cons by done.
    destruct (toStringMap cur) as [m|]; [|done].
    destruct (m !! k) as [v|]; [|done]. by apply IH.
Qed.

End path_facts.



(** X14: a dotted path is walked segment by segment: reading
    [p.q] is reading [p] and then walking [q] from the value found. *)
Theorem Get_path_composition (c : DefaultConfig) (p q : string) :
  p ≠ "" →
  Get c (p +:+ "." +:+ q) =
    match Get c p with
    | Some v => getByPathFrom v (Split q ".")
    | None => None
    end.
Proof.
  intros Hp. unfold Get. rewrite !decide_False; [|done|by destruct p].
  unfold getByPath. destruct (data c) as [d|]; [|done].
  change (p +:+ "." +:+ q) with (p +:+ String "." q).
  rewrite Split_app_sep. apply getByPathFrom_app; apply Split_nonempty.
Qed.

Lemma Get_path_composition_witness :
  Get (setData Examples.yamlConfig {[ "db" := VMap {[ "port" := VInt 1 ]} ]}) "db.port"
  = Some (VInt 1).
Proof.
  change "db.port" with ("db" +:+ "." +:+ "port").
  rewrite Get_path_composition by done. reflexivity.
Defined.

(** ** The default environment value parser, continued *)

Section parse_int_facts.

Lemma digitVal_nonneg c d : digitVal c = Some d → 0 ≤ d.
Proof.
  unfold digitVal. set (n := Z.of_N _). set (l := Z.lor n 32).
  destruct (Z.leb_spec 48 n), (Z.leb_spec n 57),
    (Z.leb_spec 97 l), (Z.leb_spec l 122); simpl; intros ?; simplify_eq; lia.
Qed.

Lemma parseDigits_nonneg base acc s v :
  0 ≤ base → 0 ≤ acc → parseDigits base acc s = Some v → 0 ≤ v.
Proof.
  intros Hb. revert acc. induction s as [|c s IH]; intros acc Hacc; simpl.
  - by intros [= <-].
  - destruct (digitVal c) as [d|] eqn:Hd; [|done].
    apply digitVal_nonneg in Hd. destruct (d <? base); [|done].
    apply IH. nia.
Qed.

Lemma ParseUint_nonneg s base bitSize un :
  0 ≤ base → ParseUint s base bitSize = Some un → 0 ≤ un.
Proof.
  intros Hb. unfold ParseUint. case_decide; [done|].
  destruct (parseDigits base 0 s) as [w|] eqn:Hp; [|done].
  destruct (w <=? 2 ^ bitSize - 1); [|done]. intros [= <-].
  by eapply (parseDigits_nonneg base 0 s).
Qed.

Lemma ParseInt_range s base bitSize v :
  0 ≤ base → 0 < bitSize →
  ParseInt s base bitSize = Some v →
  - 2 ^ (bitSize - 1) ≤ v < 2 ^ (bitSize - 1).
Proof.
  intros Hb Hs. destruct s as [|c s']; [done|]. unfold ParseInt.
  assert (0 < 2 ^ (bitSize - 1)) by (apply Z.pow_pos_nonneg; lia).
  destruct (Ascii.eqb c "+"), (Ascii.eqb c "-");
    (destruct (ParseUint _ base bitSize) as [un|] eqn:Hun; [|done]);
    apply ParseUint_nonneg in Hun; try done;
    destruct (Z.leb_spec (2 ^ (bitSize - 1)) un),
      (Z.ltb_spec (2 ^ (bitSize - 1)) un); simpl; intros ?; simplify_eq; lia.
Qed.

End parse_int_facts.

(** X15: what the default environment value parser can return: the
    result depends on the trimmed text only; it is never a map; a string
    result is the trimmed text itself; an integer result lies in the
    range of a signed 64-bit integer. *)
Theorem defaultEnvValueParser_results
    (ParseFloat ParseDuration : string → option Z) (raw : string) :
  let parse := defaultEnvValueParser ParseFloat ParseDuration in
  parse (TrimSpace raw) = parse raw
  ∧ toStringMap (parse raw) = None
  ∧ (∀ s, parse raw = VString s → s = TrimSpace raw)
  ∧ (∀ i, parse raw = VInt i → - 2 ^ 63 ≤ i < 2 ^ 63).
Proof.
  cbv zeta. split_and!.
  - unfold defaultEnvValueParser. by rewrite TrimSpace_idem.
  - apply defaultEnvValueParser_scalar.
  - intros s. unfold defaultEnvValueParser.
    repeat (case_decide || case_bool_decide || case_match); try done; congruence.
  - intros i. unfold defaultEnvValueParser.
    repeat (case_decide || case_bool_decide); try done.
    destruct (ParseInt (TrimSpace raw) 10 64) as [j|] eqn:Hj.
    + intros [= <-]. by apply (ParseInt_range _ 10 64) in Hj.
    + repeat case_match; done.
Qed.

(** ** The decoder registry, continued *)

Section registry_order_facts.

Lemma registerAll_app c l1 l2 :
  registerAll c (l1 ++ l2) = registerAll (registerAll c l1) l2.
Proof. unfold registerAll. by rewrite fmap_app, foldl_app. Qed.

Lemma registerAll_other c decs k :
  (∀ d, d ∈ decs → ToLower (DecoderFormat d) ≠ k) →
  decoders (registerAll c decs) !! k = decoders c !! k.
Proof.
  revert c. induction decs as [|d decs IH]; intros c Hall; [done|].
  rewrite registerAll_cons, IH, WithDecoder_decoders.
  - case_decide as Hd; [|done]. destruct Hd as [_ Hd].
    exfalso. eapply Hall; [|done]. by left.
  - intros d' Hd'. apply Hall. by right.
Qed.

End registry_order_facts.

(** X16: the decoder registry is keyed by the lower-cased format tag and
    the last registration of a tag wins: a decoder with a non-empty tag
    is the one found under its lower-cased tag as long as no decoder
    registered after it has the same tag up to letter case. *)
Theorem WithDecoder_last_registration_wins
    (before after : list Decoder) (d : Decoder) :
  ToLower (DecoderFormat d) ≠ "" →
  (∀ d', d' ∈ after → ToLower (DecoderFormat d') ≠ ToLower (DecoderFormat d)) →
  decoders (configWithDecoders (before ++ d :: after)) !! ToLower (DecoderFormat d)
  = Some d.
Proof.
  intros Hne Hafter.
  rewrite configWithDecoders_registerAll, registerAll_app, registerAll_cons.
  rewrite registerAll_other by done.
  rewrite WithDecoder_decoders. by rewrite decide_True.
Qed.

Lemma WithDecoder_last_registration_wins_witness :
  decoders (configWithDecoders
              ([Examples.constDecoder "yaml" ∅]
               ++ Examples.constDecoder "YAML" {[ "v" := VInt 2 ]}
               :: [Examples.constDecoder "json" ∅]))
    !! ToLower "YAML"
  = Some (Examples.constDecoder "YAML" {[ "v" := VInt 2 ]}).
Proof.
  apply (WithDecoder_last_registration_wins
           [Examples.constDecoder "yaml" ∅] [Examples.constDecoder "json" ∅]
           (Examples.constDecoder "YAML" {[ "v" := VInt 2 ]})).
  - vm_compute. discriminate.
  - intros d' ->%list_elem_of_singleton. vm_compute. discriminate.
Defined.

(** ** Properties grammar, continued *)

Section unescape_facts.
Import Properties.
Implicit Types (rs out : list rune).

Lemma unescapeFrom_app_gen n a b out o :
  (length a ≤ n)%nat →
  unescapeFrom a out = Ok o → unescapeFrom (a ++ b) out = unescapeFrom b o.
Proof.
  revert a out o. induction n as [|n IH]; intros a out o Hn.
  - destruct a; [|simpl in Hn; lia]. by intros [= <-].
  - destruct a as [|c rest]; [by intros [= <-]|]. simpl in Hn.
    cbn [unescapeFrom app]. destruct (negb (c =? 92)).
    { apply IH. lia. }
    destruct rest as [|c2 rest2]; [done|]. simpl in Hn. cbn [app].
    destruct (c2 =? 116); [apply IH; lia|].
    destruct (c2 =? 110); [apply IH; lia|].
    destruct (c2 =? 114); [apply IH; lia|].
    destruct (c2 =? 92); [apply IH; lia|].
    destruct (c2 =? 117); [|apply IH; lia].
    destruct rest2 as [|h1 [|h2 [|h3 [|h4 rest3]]]]; try done.
    simpl in Hn. cbn [app].
    destruct (ParseInt _ 16 32); [|done]. apply IH. lia.
Qed.

Lemma unescapeFrom_length n rs out o :
  (length rs ≤ n)%nat →
  unescapeFrom rs out = Ok o → (length o ≤ length out + length rs)%nat.
Proof.
  revert rs out o. induction n as [|n IH]; intros rs out o Hn.
  - destruct rs; [|simpl in Hn; lia]. intros [= <-]. simpl. lia.
  - destruct rs as [|c rest]; [intros [= <-]; simpl; lia|]. simpl in Hn.
    cbn [unescapeFrom].
    assert (Hstep : ∀ tl x, (length tl ≤ n)%nat → (length tl < length (c :: rest))%nat →
              unescapeFrom tl (out ++ [x]) = Ok o →
              (length o ≤ length out + length (c :: rest))%nat).
    { intros tl x Htl Hlt Hr. apply IH in Hr; [|done].
      rewrite length_app in Hr. simpl in *. lia. }
    destruct (negb (c =? 92)); [apply Hstep; simpl; lia|].
    destruct rest as [|c2 rest2]; [done|]. simpl in Hn.
    destruct (c2 =? 116); [apply Hstep; simpl; lia|].
    destruct (c2 =? 110); [apply Hstep; simpl; lia|].
    destruct (c2 =? 114); [apply Hstep; simpl; lia|].
    destruct (c2 =? 92); [apply Hstep; simpl; lia|].
    destruct (c2 =? 117); [|apply Hstep; simpl; lia].
    destruct rest2 as [|h1 [|h2 [|h3 [|h4 rest3]]]]; try done.
    simpl in Hn. destruct (ParseInt _ 16 32); [|done].
    apply Hstep; simpl; lia.
Qed.

Lemma unescapeFrom_plain rs out :
  Forall (λ r, r ≠ 92 ∧ writtenRune r = r) rs →
  unescapeFrom rs out = Ok (out ++ rs).
Proof.
  intros Hrs. revert out. induction Hrs as [|r rs [Hr Hw] _ IH]; intros out.
  - by rewrite List.app_nil_r.
  - cbn [unescapeFrom]. apply Z.eqb_neq in Hr as ->. simpl.
    by rewrite IH, Hw, <- List.app_assoc.
Qed.

Lemma unescapeFrom_acc n rs out :
  (length rs ≤ n)%nat →
  unescapeFrom rs out =
    match unescapeFrom rs [] with
    | Ok o => Ok (out ++ o)
    | Err e => Err e
    end.
Proof.
  revert rs out. induction n as [|n IH]; intros rs out Hn.
  - destruct rs; [|simpl in Hn; lia]. simpl. by rewrite List.app_nil_r.
  - destruct rs as [|c rest]; [simpl; by rewrite List.app_nil_r|]. simpl in Hn.
    cbn [unescapeFrom].
    assert (Hstep : ∀ tl x, (length tl ≤ n)%nat →
              unescapeFrom tl (out ++ [x]) =
                match unescapeFrom tl ([] ++ [x]) with
                | Ok o => Ok (out ++ o)
                | Err e => Err e
                end).
    { intros tl x Htl. rewrite (IH tl (out ++ [x])), (IH tl ([] ++ [x])) by done.
      destruct (unescapeFrom tl []); [|done]. by rewrite <- List.app_assoc. }
    destruct (negb (c =? 92)); [apply Hstep; lia|].
    destruct rest as [|c2 rest2]; [done|]. simpl in Hn.
    destruct (c2 =? 116); [apply Hstep; lia|].
    destruct (c2 =? 110); [apply Hstep; lia|].
    destruct (c2 =? 114); [apply Hstep; lia|].
    destruct (c2 =? 92); [apply Hstep; lia|].
    destruct (c2 =? 117); [|apply Hstep; lia].
    destruct rest2 as [|h1 [|h2 [|h3 [|h4 rest3]]]]; try done.
    simpl in Hn. destruct (ParseInt _ 16 32); [|done].
    apply Hstep; lia.
Qed.

End unescape_facts.

(** X17: [unescape] returns a text without backslash unchanged (its
    runes being valid code points), and its result is never longer, in
    runes, than its argument. *)
Theorem unescape_plain_and_length (rs : list Properties.rune) :
  (Forall (λ r, r ≠ 92 ∧ Properties.writtenRune r = r) rs →
   Properties.unescape rs = Ok rs)
  ∧ (∀ out, Properties.unescape rs = Ok out → (length out ≤ length rs)%nat).
Proof.
  split.
  - intros Hrs. unfold Properties.unescape. by rewrite unescapeFrom_plain.
  - intros out Hout. by apply (unescapeFrom_length (length rs)) in Hout.
Qed.

(** X18: [unescape] works through its argument from left to right: when
    a prefix unescapes to [a'], the whole text unescapes to [a'] followed
    by what the rest unescapes to, and fails when the rest fails; so a
    backslash left alone at the end is always an error. *)
Theorem unescape_app (a b a' : list Properties.rune) :
  Properties.unescape a = Ok a' →
  Properties.unescape (a ++ b) =
    match Properties.unescape b with
    | Ok b' => Ok (a' ++ b')
    | Err e => Err e
    end
  ∧ Properties.unescape (a ++ [92]) =
      Err (Errorf "invalid escape sequence at end of string" [] None).
Proof.
  intros Ha. unfold Properties.unescape in *. split.
  - rewrite (unescapeFrom_app_gen (length a) a b [] a') by done.
    apply (unescapeFrom_acc (length b)). done.
  - by rewrite (unescapeFrom_app_gen (length a) a [92] [] a').
Qed.

Lemma unescape_app_witness :
  Properties.unescape ([97; 92; 110] ++ [98]) =
    match Properties.unescape [98] with
    | Ok b' => Ok ([97; 10] ++ b')
    | Err e => Err e
    end
  ∧ Properties.unescape ([97; 92; 110] ++ [92]) =
      Err (Errorf "invalid escape sequence at end of string" [] None).
Proof. apply (unescape_app [97; 92; 110] [98] [97; 10]). reflexivity. Defined.

Section logical_line_facts.
Import Properties.
Implicit Types (s r b : string) (c : ascii).

Lemma TR_absorb (f g : ascii → bool) s :
  (∀ c, g c = true → f c = true) →
  TrimRightFunc f (TrimRightFunc g s) = TrimRightFunc f s.
Proof.
  intros Hgf. induction s as [|c s IH]; [done|]. cbn [TrimRightFunc].
  destruct (TrimRightFunc g s) as [|d r] eqn:Hg.
  - simpl in IH. rewrite <- IH. destruct (g c) eqn:Hc.
    + by rewrite (Hgf c Hc).
    + simpl. by destruct (f c).
  - cbn [TrimRightFunc] in IH |- *. by rewrite IH.
Qed.

Lemma TrimSpace_TrimRight_cr r : TrimSpace (TrimRight r "013") = TrimSpace r.
Proof.
  rewrite !TrimSpace_alt. unfold TrimRight. rewrite TR_absorb; [done|].
  intros c Hc. apply Ascii.eqb_eq in Hc as <-. reflexivity.
Qed.

Lemma HasSuffix_byte c s : HasSuffix s (String c "") = true → ¬ noByte c s.
Proof.
  induction s as [|d s IH]; [done|]. cbn [HasSuffix].
  intros [Heq|Hs]%orb_prop.
  - apply String.eqb_eq in Heq. simplify_eq. rewrite noByte_cons. naive_solver.
  - rewrite noByte_cons. intros [_ ?]. by apply IH.
Qed.

Lemma Split_noByte_pieces c sep s : noByte c s → Forall (noByte c) (Split s sep).
Proof.
  induction s as [|d s IH].
  - intros _. apply Forall_cons. split; [apply noByte_nil|by apply Forall_nil].
  - intros [Hne Hs]%noByte_cons. specialize (IH Hs). cbn [Split].
    destruct (Ascii.eqb d sep).
    + apply Forall_cons. split; [apply noByte_nil|done].
    + destruct (Split s sep) as [|p ps].
      * apply Forall_cons. split; [|by apply Forall_nil].
        apply noByte_cons. split; [done|apply noByte_nil].
      * apply Forall_cons in IH as [Hp Hps]. apply Forall_cons. split; [|done].
        by apply noByte_cons.
Qed.

Lemma splitStep_plain st r :
  continuation st = false → noByte "\" r →
  splitStep st r =
    {| buf := TrimSpace r; continuation := false;
       lines := lines st ++ [TrimSpace r] |}.
Proof.
  intros Hc Hr. unfold splitStep. rewrite Hc, TrimSpace_TrimRight_cr.
  destruct (HasSuffix (TrimSpace r) "\") eqn:Hs; [|done].
  apply HasSuffix_byte in Hs. destruct Hs.
  by apply noByte_TrimRight, noByte_TrimLeft.
Qed.

Lemma foldl_splitStep_plain st rs :
  continuation st = false → Forall (noByte "\") rs →
  continuation (foldl splitStep st rs) = false
  ∧ lines (foldl splitStep st rs) = lines st ++ (TrimSpace <$> rs).
Proof.
  intros Hc Hrs. revert st Hc. induction Hrs as [|r rs Hr _ IH]; intros st Hc.
  - simpl. by rewrite List.app_nil_r.
  - cbn [foldl]. rewrite (splitStep_plain st r Hc Hr).
    destruct (IH {| buf := TrimSpace r; continuation := false;
                    lines := lines st ++ [TrimSpace r] |} eq_refl) as [-> ->].
    split; [done|]. simpl. by rewrite <- List.app_assoc.
Qed.

End logical_line_facts.

(** X19: on a text without backslash the logical lines are the physical
    lines, each with its surrounding white space (a trailing carriage
    return included) removed: none is dropped and none is joined. *)
Theorem splitLogicalLines_no_backslash (s : string) :
  noByte "\" s →
  Properties.splitLogicalLines s = TrimSpace <$> Split s "010".
Proof.
  intros Hs. unfold Properties.splitLogicalLines.
  destruct (foldl_splitStep_plain
              {| Properties.buf := ""; Properties.continuation := false;
                 Properties.lines := [] |}
              (Split s "010") eq_refl (Split_noByte_pieces _ _ _ Hs)) as [-> ->].
  done.
Qed.

Lemma splitLogicalLines_no_backslash_witness :
  Properties.splitLogicalLines (" a = 1 " +:+ String "013" (String "010" "b: 2"))
  = TrimSpace <$> Split (" a = 1 " +:+ String "013" (String "010" "b: 2")) "010".
Proof. apply splitLogicalLines_no_backslash. reflexivity. Defined.

Section key_value_facts.
Implicit Types (s key val : string) (c : ascii) (f : ascii → bool).

Lemma IndexFunc_None_noByte f s c :
  IndexFunc f s = None → f c = true → noByte c s.
Proof.
  intros Hs Hc. induction s as [|d s IH]; [apply noByte_nil|].
  simpl in Hs. destruct (f d) eqn:Hd; [done|].
  destruct (IndexFunc f s); [done|]. apply noByte_cons. split; [congruence|by apply IH].
Qed.

Lemma IndexFunc_Some_take f s i :
  IndexFunc f s = Some i → IndexFunc f (take i s) = None.
Proof.
  revert i. induction s as [|d s IH]; intros i; [done|]. simpl.
  destruct (f d) eqn:Hd; [by intros [= <-]|].
  destruct (IndexFunc f s) as [j|]; [|done]. intros [= <-]. simpl.
  by rewrite Hd, (IH j).
Qed.

Lemma IndexFunc_app f s c t :
  IndexFunc f s = None → f c = true →
  IndexFunc f (s +:+ String c t) = Some (String.length s).
Proof.
  intros Hs Hc. induction s as [|d s IH].
  - change ("" +:+ String c t) with (String c t). simpl. by rewrite Hc.
  - rewrite app_cons. simpl in *. destruct (f d); [done|].
    destruct (IndexFunc f s); [done|]. by rewrite IH.
Qed.

Lemma IndexFunc_None_TrimSpace s : IndexFunc isSpace s = None → TrimSpace s = s.
Proof.
  intros Hs. unfold TrimSpace.
  assert (TrimLeftFunc isSpace s = s) as ->.
  { destruct s as [|c s]; [done|]. simpl in *. by destruct (isSpace c). }
  induction s as [|c s IH]; [done|]. simpl in *.
  destruct (isSpace c) eqn:Hc; [done|].
  destruct (IndexFunc isSpace s); [done|]. rewrite IH by done.
  by destruct s.
Qed.

Lemma isKeySeparator_noByte s :
  IndexFunc isKeySeparator s = None → noByte "=" s ∧ noByte ":" s.
Proof. intros Hs. split; by eapply IndexFunc_None_noByte. Qed.

End key_value_facts.

(** X20: [splitKeyValue] cuts a line at its first [=] or [:] and trims
    both sides; a line with neither is cut at its first white space; the
    key it returns never contains [=] or [:], and the flag is always
    true. *)
Theorem splitKeyValue_first_separator (s : string) :
  (∀ key sep val,
     s = key +:+ String sep val →
     isKeySeparator sep = true →
     IndexFunc isKeySeparator key = None →
     splitKeyValue s = (TrimSpace key, TrimSpace val, true))
  ∧ (∀ key ws val,
     s = key +:+ String ws val →
     IndexFunc isKeySeparator s = None →
     isSpace ws = true →
     IndexFunc isSpace key = None →
     splitKeyValue s = (key, TrimSpace val, true))
  ∧ (∀ key val ok,
     splitKeyValue s = (key, val, ok) →
     ok = true ∧ noByte "=" key ∧ noByte ":" key).
Proof.
  split_and!.
  - intros key sep val -> Hsep Hkey. unfold splitKeyValue.
    rewrite (IndexFunc_app _ _ _ _ Hkey Hsep).
    rewrite take_app_length.
    by rewrite (drop_app_length key (String sep val) 1).
  - intros key ws val -> Hnone Hws Hkey. unfold splitKeyValue.
    rewrite Hnone, (IndexFunc_app _ _ _ _ Hkey Hws).
    rewrite take_app_length, (drop_app_length key (String ws val) 1).
    by rewrite (IndexFunc_None_TrimSpace key).
  - intros key val ok. unfold splitKeyValue.
    destruct (IndexFunc isKeySeparator s) as [i|] eqn:Hi.
    + intros [= <- <- <-]. split; [done|].
      apply IndexFunc_Some_take, isKeySeparator_noByte in Hi as [? ?].
      split; by apply noByte_TrimRight, noByte_TrimLeft.
    + destruct (isKeySeparator_noByte s Hi) as [H1 H2].
      destruct (IndexFunc isSpace s) as [idx|] eqn:Hidx; intros [= <- <- <-].
      * split; [done|].
        assert (∀ c, noByte c s → noByte c (take idx s)) as Htake.
        { intros c. clear. revert idx. induction s as [|d s IH]; intros [|idx];
            try done. simpl. rewrite !noByte_cons. naive_solver. }
        split; by apply noByte_TrimRight, noByte_TrimLeft, Htake.
      * done.
Qed.

(** ** Format detection from a content type *)

Section content_type_facts.
Implicit Types (s mt params : string) (c d : ascii).

Lemma lowerByte_semicolon d : lowerByte d = ";"%char → d = ";"%char.
Proof.
  destruct d as [[] [] [] [] [] [] [] []]; vm_compute; intros H; by inversion H.
Qed.

Lemma noByte_ToLower_keep c s :
  (∀ d, lowerByte d = c → d = c) → noByte c s → noByte c (ToLower s).
Proof.
  intros Hc. unfold ToLower. induction s as [|d s IH]; [done|].
  simpl. rewrite !noByte_cons. intros [Hne Hs]. split; [|by apply IH].
  intros Heq. apply Hne. symmetry. by apply Hc.
Qed.

End content_type_facts.

(** X21: [detectFormatFromContentType] ignores letter case and
    everything from the first [;] on, trimming what stands before it;
    what it returns is one of [json], [yaml], [toml], each already
    normalized. *)
Theorem detectFormatFromContentType_parameters (mt params : string) :
  noByte ";" mt →
  detectFormatFromContentType (mt +:+ ";" +:+ params)
    = detectFormatFromContentType (TrimSpace mt)
  ∧ detectFormatFromContentType (ToLower mt) = detectFormatFromContentType mt
  ∧ (∀ f, detectFormatFromContentType mt = Some f →
       f ∈ ["json"; "yaml"; "toml"] ∧ normalizeFormat f = f).
Proof.
  intros Hmt. split_and!.
  - unfold detectFormatFromContentType.
    change (mt +:+ ";" +:+ params) with (mt +:+ String ";" params).
    rewrite ToLower_app.
    change (ToLower (String ";" params)) with (String ";" (ToLower params)).
    pose proof (noByte_ToLower_keep ";" mt lowerByte_semicolon Hmt) as Hl.
    rewrite (Index_byte_app _ _ _ Hl), take_app_length.
    rewrite <- TrimSpace_ToLower.
    assert (noByte ";" (TrimSpace (ToLower mt))) as Ht
      by by apply noByte_TrimRight, noByte_TrimLeft.
    unfold noByte in Ht. by rewrite Ht.
  - unfold detectFormatFromContentType. by rewrite ToLower_idem.
  - intros f. unfold detectFormatFromContentType.
    repeat case_decide; intros [= <-]; split; try done; set_solver.
Qed.

Lemma detectFormatFromContentType_parameters_witness :
  detectFormatFromContentType (" Application/JSON " +:+ ";" +:+ " charset=utf-8")
  = Some "json".
Proof.
  destruct (detectFormatFromContentType_parameters
              " Application/JSON " " charset=utf-8") as [-> _]; reflexivity.
Defined.

(** ** The polling watcher *)

Section watcher_facts.
Implicit Types (a b data : bytes) (st : watcherState).

Lemma equalBytesFrom_spec a b :
  length a = length b → equalBytesFrom a b = true ↔ a = b.
Proof.
  revert b. induction a as [|x a IH]; intros [|y b]; simpl; try done.
  intros [= Hlen]. destruct (Byte.eqb x y) eqn:Hxy; simpl.
  - apply Byte.byte_dec_bl in Hxy as ->. rewrite (IH b Hlen). naive_solver.
  - split; [done|]. intros [= -> _].
    assert (Byte.eqb y y = true) by by apply Byte.byte_dec_lb. congruence.
Qed.

Lemma equalBytes_spec a b : equalBytes a b = true ↔ a = b.
Proof.
  unfold equalBytes. destruct (Nat.eqb_spec (length a) (length b)) as [Hl|Hl]; simpl.
  - by apply equalBytesFrom_spec.
  - split; [done|]. by intros ->.
Qed.

Lemma watcherTick_same st data :
  lastContent st = data → watcherTick st (Ok data) = st.
Proof.
  intros <-. unfold watcherTick.
  by rewrite (proj2 (equalBytes_spec (lastContent st) (lastContent st)) eq_refl).
Qed.

Lemma watcherTick_change st data :
  lastContent st ≠ data →
  watcherTick st (Ok data) =
    {| lastContent := data; notified := notified st ++ [data] |}.
Proof.
  intros Hne. unfold watcherTick.
  destruct (equalBytes (lastContent st) data) eqn:He; [|done].
  by apply equalBytes_spec in He.
Qed.

End watcher_facts.

(** X22: the polling watcher calls [onChange] exactly when a successful
    load returns content different from the last one it saw (the empty
    content at the start): a failed load changes nothing, a load that
    repeats the previous content changes nothing, and a load with new
    content is recorded and notified once. *)
Theorem ApolloWatcher_notifies_on_change
    (before after : list (result bytes)) (data : bytes) :
  (∀ e, ApolloWatcherStart (before ++ Err e :: after)
        = ApolloWatcherStart (before ++ after))
  ∧ (lastContent (ApolloWatcherStart before) = data →
     ApolloWatcherStart (before ++ Ok data :: after)
     = ApolloWatcherStart (before ++ after))
  ∧ (lastContent (ApolloWatcherStart before) ≠ data →
     ApolloWatcherStart (before ++ [Ok data])
     = {| lastContent := data;
          notified := notified (ApolloWatcherStart before) ++ [data] |})
  ∧ ApolloWatcherStart (before ++ [Ok data; Ok data])
    = ApolloWatcherStart (before ++ [Ok data]).
Proof.
  unfold ApolloWatcherStart. split_and!.
  - intros e. by rewrite !foldl_app.
  - intros Hlast. rewrite !foldl_app. cbn [foldl]. by rewrite watcherTick_same.
  - intros Hne. rewrite foldl_app. cbn [foldl]. by apply watcherTick_change.
  - rewrite !foldl_app. cbn [foldl].
    set (st := foldl watcherTick _ before).
    apply watcherTick_same. unfold watcherTick.
    destruct (equalBytes (lastContent st) data) eqn:He; [|done].
    by apply equalBytes_spec in He.
Qed.

(** ** Placeholder expansion over a loaded tree *)

Section expand_map_facts.
Context (rec : value → result tree) (exp : VariableExpander) (lookup : lookupFn).

Lemma expandEntry_fold_Ok (init m0 r : tree) :
  map_fold (expandEntry rec exp lookup) (Ok init) m0 = Ok r →
  (dom m0 ⊆ dom init → dom r ≡ dom init)
  ∧ ∀ k,
      match m0 !! k with
      | None => r !! k = init !! k
      | Some (VString s) =>
          ∃ out, ExpanderExpand exp s lookup = Ok out ∧ r !! k = Some (VString out)
      | Some _ => True
      end.
Proof.
  revert r. apply (map_fold_weak_ind (λ acc m0, ∀ r, acc = Ok r →
      (dom m0 ⊆ dom init → dom r ≡ dom init)
      ∧ ∀ k, match m0 !! k with
             | None => r !! k = init !! k
             | Some (VString s) =>
                 ∃ out, ExpanderExpand exp s lookup = Ok out
                        ∧ r !! k = Some (VString out)
             | Some _ => True
             end)).
  - intros r [= <-]. split; [done|]. intros k. by rewrite lookup_empty.
  - intros i x m acc Hi IH r Hr. unfold expandEntry in Hr.
    destruct acc as [m1|e]; [|done]. destruct (IH m1 eq_refl) as [Hdom Hlook].
    cbn [mbind result_bind] in Hr.
    assert (Hins : ∀ y, r = <[i := y]> m1 →
              (dom (<[i := x]> m) ⊆ dom init → dom r ≡ dom init)
              ∧ ∀ k, k ≠ i → r !! k = m1 !! k).
    { intros y ->. split.
      - rewrite !dom_insert. intros Hsub. rewrite Hdom by set_solver. set_solver.
      - intros k Hk. by rewrite lookup_insert_ne. }
    assert (Hother : ∀ k, k ≠ i → (∀ k', k' ≠ i → r !! k' = m1 !! k') →
              match m !! k with
              | None => r !! k = init !! k
              | Some (VString s) =>
                  ∃ out, ExpanderExpand exp s lookup = Ok out
                         ∧ r !! k = Some (VString out)
              | Some _ => True
              end).
    { intros k Hk Hr'. specialize (Hlook k). rewrite (Hr' k Hk).
      by destruct (m !! k) as [[]|]. }
    destruct x as [|s| | | | |sub|sub others|l].
    all: try (injection Hr as <-; split;
      [rewrite dom_insert; intros Hsub; apply Hdom; set_solver|];
      intros k; destruct (decide (k = i)) as [->|Hk];
      [by rewrite lookup_insert_eq|];
      rewrite lookup_insert_ne by done; apply Hlook).
    + destruct (ExpanderExpand exp s lookup) as [out|e] eqn:Hout; [|done].
      cbn [mbind result_bind] in Hr. injection Hr as <-.
      destruct (Hins (VString out) eq_refl) as [Hd Hne]. split; [done|].
      intros k. destruct (decide (k = i)) as [->|Hk].
      * rewrite !lookup_insert_eq. eauto.
      * rewrite lookup_insert_ne by done. by apply Hother.
    + destruct (rec (VMap sub)) as [sub'|e]; [|done].
      cbn [mbind result_bind] in Hr. injection Hr as <-.
      destruct (Hins (VMap sub') eq_refl) as [Hd Hne]. split; [done|].
      intros k. destruct (decide (k = i)) as [->|Hk].
      * by rewrite lookup_insert_eq.
      * rewrite lookup_insert_ne by done. by apply Hother.
    + destruct (rec (VAnyMap sub others)) as [sub'|e]; [|done].
      cbn [mbind result_bind] in Hr. injection Hr as <-.
      destruct (Hins (VMap sub') eq_refl) as [Hd Hne]. split; [done|].
      intros k. destruct (decide (k = i)) as [->|Hk].
      * by rewrite lookup_insert_eq.
      * rewrite lookup_insert_ne by done. by apply Hother.
    + destruct (mapM (expandItem rec exp lookup) l) as [items|e]; [|done].
      cbn [mbind result_bind] in Hr. injection Hr as <-.
      destruct (Hins (VList items) eq_refl) as [Hd Hne]. split; [done|].
      intros k. destruct (decide (k = i)) as [->|Hk].
      * by rewrite lookup_insert_eq.
      * rewrite lookup_insert_ne by done. by apply Hother.
Qed.

Lemma expandEntry_fold_Err (init m0 : tree) k s e :
  m0 !! k = Some (VString s) →
  ExpanderExpand exp s lookup = Err e →
  ∃ e', map_fold (expandEntry rec exp lookup) (Ok init) m0 = Err e'.
Proof.
  intros Hk He. revert Hk.
  apply (map_fold_weak_ind (λ acc m0, m0 !! k = Some (VString s) → ∃ e', acc = Err e')).
  - by rewrite lookup_empty.
  - intros i x m acc Hi IH Hlook. unfold expandEntry.
    destruct acc as [m1|e1]; [|by eexists].
    cbn [mbind result_bind].
    destruct (decide (k = i)) as [->|Hne].
    + rewrite lookup_insert_eq in Hlook. injection Hlook as ->.
      rewrite He. by eexists.
    + rewrite lookup_insert_ne in Hlook by done. by destruct (IH Hlook).
Qed.

End expand_map_facts.

(** X23: with expansion switched on, [Load] expands the string leaves of
    the merged tree through the expander, looking names up with the
    environment prefix prepended: a top-level string is read back by
    [Get] as its expansion, the top-level keys are those of the merged
    tree, and if the expansion of that string fails the whole [Load]
    fails with the [expand env vars failed] error and publishes
    nothing. *)
Theorem Load_expands_string_leaf
    (c : DefaultConfig) (env : lookupFn) (exp : VariableExpander)
    (sources : list (option ConfigSource)) (tmp : tree) (k s : string) :
  sources ≠ [] →
  envExpand c = true →
  expander c = Some exp →
  loadSources c ∅ sources = Ok tmp →
  tmp !! k = Some (VString s) →
  k ≠ "" → noByte "." k →
  let lookup name :=
    env (if decide (envPrefix c ≠ "") then envPrefix c +:+ name else name) in
  (∀ out c',
     ExpanderExpand exp s lookup = Ok out →
     Load c env sources = (c', None) →
     Get c' k = Some (VString out)
     ∧ ∃ d, data c' = Some d ∧ dom d ≡ dom tmp)
  ∧ (∀ e,
     ExpanderExpand exp s lookup = Err e →
     ∃ e', Load c env sources
           = (c, Some (Errorf "expand env vars failed: %w" [] (Some e')))).
Proof.
  intros Hsrc Hexp Hexpander Hload Hk Hne Hdot lookup.
  assert (HLoad : Load c env sources =
            match expandMapInPlace tmp exp lookup with
            | Err e => (c, Some (Errorf "expand env vars failed: %w" [] (Some e)))
            | Ok tmp' => (setData c tmp', None)
            end).
  { unfold Load. destruct sources as [|src rest]; [done|].
    rewrite Hload. cbn [mbind result_bind]. unfold expandStep.
    rewrite Hexp, Hexpander. fold lookup.
    by destruct (expandMapInPlace tmp exp lookup). }
  rewrite HLoad. unfold expandMapInPlace. cbn [expandMapValue]. split.
  - intros out c' Hout.
    destruct (map_fold _ (Ok tmp) tmp) as [tmp'|e] eqn:Hfold; [|done].
    intros [= <-].
    destruct (expandEntry_fold_Ok _ _ _ _ _ _ Hfold) as [Hdom Hlook].
    specialize (Hlook k). rewrite Hk in Hlook.
    destruct Hlook as (out' & Hout' & Hr). rewrite Hout in Hout'.
    injection Hout' as <-. split.
    + unfold Get. rewrite decide_False by done. unfold getByPath, setData, data.
      rewrite (Split_noByte _ _ Hdot).
      change (getByPathFrom _ [k])
        with (match tmp' !! k with Some v0 => Some v0 | None => None end).
      by rewrite Hr.
    + exists tmp'. split; [done|]. by apply Hdom.
  - intros e He.
    destruct (expandEntry_fold_Err (expandMapValue exp lookup) exp lookup
                tmp tmp k s e Hk He) as [e' ->].
    by exists e'.
Qed.

Lemma Load_expands_string_leaf_witness :
  ∃ e', Load Examples.expandingConfig Examples.noEnv
          [Some (Examples.namedSource "json" "app")]
        = (Examples.expandingConfig,
           Some (Errorf "expand env vars failed: %w" [] (Some e'))).
Proof.
  eapply (proj2 (Load_expands_string_leaf
                   Examples.expandingConfig Examples.noEnv DefaultVariableExpander
                   [Some (Examples.namedSource "json" "app")]
                   {[ "listen" := VString "0.0.0.0:${env.PORT" ]}
                   "listen" "0.0.0.0:${env.PORT"
                   ltac:(discriminate) eq_refl eq_refl eq_refl eq_refl
                   ltac:(discriminate) eq_refl)).
  reflexivity.
Defined.

(** ** The flattened key list *)

Section flatten_facts.
Implicit Types (m : tree) (v leaf : value) (p q k prefix : string).

Lemma Split_cons_inv q sep k rest :
  Split q sep = k :: rest →
  noByte sep k ∧
  match rest with
  | [] => q = k
  | _ => ∃ q', q = k +:+ String sep q' ∧ Split q' sep = rest
  end.
Proof.
  revert k rest. induction q as [|c q IH]; intros k rest.
  - intros [= <- <-]. split; [apply noByte_nil|done].
  - cbn [Split]. destruct (Ascii.eqb_spec c sep) as [->|Hne].
    + intros [= <- <-]. split; [apply noByte_nil|].
      pose proof (Split_nonempty q sep). destruct (Split q sep) eqn:Hq; [done|].
      exists q. by rewrite Hq.
    + pose proof (Split_nonempty q sep). destruct (Split q sep) as [|x xs] eqn:Hq; [done|].
      intros [= <- <-]. destruct (IH x xs eq_refl) as [Hx Hrest]. split.
      * apply noByte_cons. split; [congruence|done].
      * destruct xs as [|y ys]; [by subst|].
        destruct Hrest as (q' & -> & Hq'). exists q'. by rewrite app_cons.
Qed.

Lemma flatten_fold_elem (rec : string → value → list string) prefix m p :
  p ∈ map_fold (flattenEntry rec prefix) [] m ↔
  ∃ k v2, m !! k = Some v2 ∧
    p ∈ match toStringMap v2 with
        | Some _ => rec (joinKey prefix k) v2
        | None => [joinKey prefix k]
        end.
Proof.
  apply (map_fold_weak_ind (λ acc m, p ∈ acc ↔
    ∃ k v2, m !! k = Some v2 ∧
      p ∈ match toStringMap v2 with
          | Some _ => rec (joinKey prefix k) v2
          | None => [joinKey prefix k]
          end)).
  - split; [by intros ?%elem_of_nil|]. intros (k & v2 & Hk & _).
    by rewrite lookup_empty in Hk.
  - intros i x m0 acc Hi IH.
    assert (p ∈ flattenEntry rec prefix i x acc ↔
            p ∈ acc ∨ p ∈ match toStringMap x with
                          | Some _ => rec (joinKey prefix i) x
                          | None => [joinKey prefix i]
                          end) as ->.
    { unfold flattenEntry. fold (joinKey prefix i).
      destruct (toStringMap x); by rewrite elem_of_app. }
    rewrite IH. split.
    + intros [(k & v2 & Hk & Hp)|Hp].
      * exists k, v2. split; [|done]. rewrite lookup_insert_ne; [done|]. congruence.
      * exists i, x. by rewrite lookup_insert_eq.
    + intros (k & v2 & Hk & Hp). destruct (decide (k = i)) as [->|Hne].
      * rewrite lookup_insert_eq in Hk. injection Hk as <-. by right.
      * rewrite lookup_insert_ne in Hk by done. left. eauto.
Qed.

Lemma joinKey_nonempty prefix k : k ≠ "" → joinKey prefix k ≠ "".
Proof.
  intros Hk. unfold joinKey. case_decide as Hp; [|done].
  destruct prefix; [done|]. by rewrite app_cons.
Qed.

Lemma joinKey_assoc prefix k q :
  k ≠ "" → joinKey (joinKey prefix k) q = joinKey prefix (k +:+ "." +:+ q).
Proof.
  intros Hk. unfold joinKey at 1. rewrite decide_True by by apply joinKey_nonempty.
  unfold joinKey. case_decide; [|done]. by rewrite !app_assoc.
Qed.

Lemma flatten_map_spec m prefix p :
  (∀ k v, m !! k = Some v → k ≠ "" ∧ noByte "." k) →
  (∀ k v2, m !! k = Some v2 → ∀ m2, toStringMap v2 = Some m2 →
     ∀ prefix p,
       p ∈ flattenKeys prefix v2 ↔
       ∃ q leaf, p = joinKey prefix q
                 ∧ getByPathFrom v2 (Split q ".") = Some leaf
                 ∧ toStringMap leaf = None) →
  p ∈ map_fold (flattenEntry flattenKeys prefix) [] m ↔
  ∃ q leaf, p = joinKey prefix q
            ∧ getByPathFrom (VMap m) (Split q ".") = Some leaf
            ∧ toStringMap leaf = None.
Proof.
  intros Hkeys IH. rewrite flatten_fold_elem. split.
  - intros (k & v2 & Hk & Hp). destruct (Hkeys k v2 Hk) as [Hne Hdot].
    destruct (toStringMap v2) as [m2|] eqn:Hv2.
    + apply (IH k v2 Hk m2 Hv2) in Hp as (q' & leaf & -> & Hget & Hleaf).
      exists (k +:+ "." +:+ q'), leaf. split_and!; [by apply joinKey_assoc| |done].
      change (k +:+ "." +:+ q') with (k +:+ String "." q').
      rewrite Split_app_sep, (Split_noByte _ _ Hdot). cbn [app].
      rewrite getByPathFrom_cons by apply Split_nonempty.
      cbn [toStringMap]. by rewrite Hk.
    + apply list_elem_of_singleton in Hp as ->. exists k, v2.
      split_and!; [done| |done]. rewrite (Split_noByte _ _ Hdot).
      change (getByPathFrom _ [k])
        with (match m !! k with Some v0 => Some v0 | None => None end).
      by rewrite Hk.
  - intros (q & leaf & -> & Hget & Hleaf).
    destruct (Split q ".") as [|k rest] eqn:Hq; [done|].
    destruct (Split_cons_inv _ _ _ _ Hq) as [Hdot Hrest].
    destruct rest as [|k' rest].
    + subst q.
      change (getByPathFrom _ [k])
        with (match m !! k with Some v0 => Some v0 | None => None end) in Hget.
      destruct (m !! k) as [v2|] eqn:Hk; [|done]. injection Hget as ->.
      exists k, leaf. split; [done|]. rewrite Hleaf. by apply list_elem_of_singleton.
    + destruct Hrest as (q' & -> & Hq').
      rewrite getByPathFrom_cons in Hget by done. cbn [toStringMap] in Hget.
      destruct (m !! k) as [v2|] eqn:Hk; [|done].
      destruct (Hkeys k v2 Hk) as [Hne _].
      destruct (toStringMap v2) as [m2|] eqn:Hv2;
        [|by rewrite getByPathFrom_scalar in Hget].
      exists k, v2. split; [done|]. rewrite Hv2.
      apply (IH k v2 Hk m2 Hv2). exists q', leaf.
      split_and!; [by rewrite joinKey_assoc|by rewrite Hq'|done].
Qed.

Lemma flattenKeys_spec v :
  wellKeyed v → ∀ m, toStringMap v = Some m →
  ∀ prefix p,
    p ∈ flattenKeys prefix v ↔
    ∃ q leaf, p = joinKey prefix q
              ∧ getByPathFrom v (Split q ".") = Some leaf
              ∧ toStringMap leaf = None.
Proof.
  induction 1 as [m Hkeys _ IH|m others Hkeys _ IH|v Hv]; intros m' Hm' prefix p.
  - cbn [flattenKeys]. by apply flatten_map_spec.
  - cbn [flattenKeys]. rewrite flatten_map_spec by done.
    by setoid_rewrite (getByPathFrom_view (VAnyMap m others) (VMap m)).
  - by rewrite Hv in Hm'.
Qed.

End flatten_facts.

(** X24: on a loaded tree whose map keys are non-empty and free of dots,
    [Keys] lists exactly the paths at which [Get] finds a value that is
    not a map: every listed key can be read back, and every leaf that
    can be read is listed. *)
Theorem Keys_Get_agree (c : DefaultConfig) (p : string) :
  (∀ d, data c = Some d → wellKeyed (VMap d)) →
  p ∈ Keys c ↔ ∃ v, Get c p = Some v ∧ toStringMap v = None.
Proof.
  intros Hwk. unfold Keys, Get, getByPath. destruct (data c) as [d|] eqn:Hd.
  - specialize (Hwk d eq_refl).
    rewrite (flattenKeys_spec _ Hwk d eq_refl "" p). split.
    + intros (q & leaf & -> & Hget & Hleaf). exists leaf.
      change (joinKey "" q) with q. split; [|done].
      case_decide as Hq; [|done]. subst q.
      inversion Hwk as [m Hkeys _ Hm| |v Hv]; [|done]. subst.
      change (getByPathFrom _ (Split "" "."))
        with (match d !! "" with Some v0 => Some v0 | None => None end) in Hget.
      destruct (d !! "") as [v0|] eqn:Hk; [|done].
      by destruct (Hkeys "" v0 Hk).
    + intros (v & Hget & Hleaf). case_decide as Hp.
      * simpl in Hget. by injection Hget as <-.
      * by exists p, v.
  - split; [by intros ?%elem_of_nil|]. intros (v & Hget & _).
    by case_decide.
Qed.

Lemma Keys_Get_agree_witness :
  "db.port" ∈ Keys (setData Examples.yamlConfig
                      {[ "db" := VMap {[ "port" := VInt 1 ]} ]}).
Proof.
  apply Keys_Get_agree.
  - intros d [= <-]. apply wellKeyed_map.
    + by intros k v [<- <-]%lookup_singleton_Some.
    + intros k v [<- <-]%lookup_singleton_Some. apply wellKeyed_map.
      * by intros k v [<- <-]%lookup_singleton_Some.
      * intros k v [<- <-]%lookup_singleton_Some. by apply wellKeyed_leaf.
  - by exists (VInt 1).
Defined.

(** ** The properties parser *)

Section parse_properties_facts.
Import Properties.
Implicit Types (s text line key val : string) (props : gmap string string).

Lemma writtenRune_ascii r : 0 ≤ r < 128 → writtenRune r = r.
Proof.
  intros Hr. unfold writtenRune.
  destruct (Z.ltb_spec r 0), (Z.ltb_spec 1114111 r), (Z.leb_spec 55296 r),
    (Z.leb_spec r 57343); simpl; lia.
Qed.

Lemma runes_plain s :
  isASCII s → noByte "\" s →
  Forall (λ r, r ≠ 92 ∧ writtenRune r = r) (runes s).
Proof.
  unfold isASCII, runes. induction s as [|c s IH]; simpl.
  - intros _ _. by apply Forall_nil.
  - intros [Hc Hs]%Forall_cons [Hne Hno]%noByte_cons.
    apply Forall_cons. split; [|by apply IH]. split.
    + intros Heq. apply Hne. apply (f_equal Z.to_N) in Heq.
      rewrite N2Z.id in Heq. apply (f_equal ascii_of_N) in Heq.
      by rewrite ascii_N_embedding in Heq.
    + apply writtenRune_ascii. lia.
Qed.

Lemma runeString_runes s : isASCII s → runeString (runes s) = s.
Proof.
  unfold isASCII, runes, runeString. induction s as [|c s IH]; simpl; [done|].
  intros [Hc Hs]%Forall_cons. unfold encodeRune at 1.
  rewrite writtenRune_ascii by lia.
  destruct (Z.ltb_spec (Z.of_N (N_of_ascii c)) 128); [|lia]. simpl.
  unfold byteChar. rewrite N2Z.id, ascii_N_embedding. f_equal. by apply IH.
Qed.

Lemma unescape_runes_plain s :
  isASCII s → noByte "\" s → unescape (runes s) = Ok (runes s).
Proof. intros Ha Hs. unfold unescape. by rewrite unescapeFrom_plain by by apply runes_plain. Qed.

Lemma splitLogicalLines_plain s :
  noByte "\" s → splitLogicalLines s = TrimSpace <$> Split s "010".
Proof.
  intros Hs. unfold splitLogicalLines.
  destruct (foldl_splitStep_plain
              {| buf := ""; continuation := false; lines := [] |}
              (Split s "010") eq_refl (Split_noByte_pieces _ _ _ Hs)) as [-> ->].
  done.
Qed.

Lemma parseLines_Err e ls :
  foldl (λ acc line, m ← acc; parseLine m line) (Err e) ls = Err e.
Proof. by induction ls. Qed.

Lemma parseLines_app props l1 l2 :
  parseLines props (l1 ++ l2) = m ← parseLines props l1; parseLines m l2.
Proof.
  unfold parseLines. rewrite foldl_app.
  destruct (foldl _ (Ok props) l1) as [m|e]; [done|]. apply parseLines_Err.
Qed.

Lemma parseLines_cons props line ls :
  parseLines props (line :: ls) = m ← parseLine props line; parseLines m ls.
Proof.
  unfold parseLines. cbn [foldl mbind result_bind].
  destruct (parseLine props line) as [m|e]; [done|]. apply parseLines_Err.
Qed.

Lemma parseLine_comment props line :
  TrimSpace line = "" ∨ HasPrefix (TrimSpace line) "#" = true
    ∨ HasPrefix (TrimSpace line) "!" = true →
  parseLine props (TrimSpace line) = Ok props.
Proof.
  intros H. unfold parseLine. rewrite TrimSpace_idem.
  case_decide; [done|]. destruct H as [?|[->| ->]]; [done|done|].
  by rewrite orb_true_r.
Qed.

Lemma parseLine_binding props line key sep val :
  TrimSpace line = key +:+ String sep val →
  isKeySeparator sep = true →
  IndexFunc isKeySeparator key = None →
  HasPrefix (TrimSpace line) "#" = false →
  HasPrefix (TrimSpace line) "!" = false →
  noByte "\" line →
  isASCII (TrimSpace key) → isASCII (TrimSpace val) →
  parseLine props (TrimSpace line) = Ok (<[TrimSpace key := TrimSpace val]> props).
Proof.
  intros Hline Hsep Hkey Hhash Hbang Hno Hak Hav.
  assert (noByte "\" key ∧ noByte "\" val) as [Hnk Hnv].
  { apply noByte_TrimLeft, noByte_TrimRight in Hno.
    fold (TrimSpace line) in Hno. rewrite Hline in Hno.
    apply noByte_app in Hno as [? [_ ?]%noByte_cons]. done. }
  unfold parseLine. rewrite TrimSpace_idem, Hhash, Hbang.
  rewrite decide_False by (rewrite Hline; by destruct key).
  cbn [orb]. rewrite Hline.
  assert (splitKeyValue (key +:+ String sep val)
          = (TrimSpace key, TrimSpace val, true)) as ->.
  { unfold splitKeyValue. rewrite (IndexFunc_app _ _ _ _ Hkey Hsep).
    by rewrite take_app_length, (drop_app_length key (String sep val) 1). }
  cbn [negb].
  rewrite !unescape_runes_plain, !runeString_runes; try done.
  all: by apply noByte_TrimRight, noByte_TrimLeft.
Qed.

End parse_properties_facts.

(** X25: in a text without backslash, a blank line and a comment line
    (one whose first character after trimming is [#] or [!]) contribute
    nothing to [ParseProperties], wherever they stand. *)
Theorem ParseProperties_comment_ignored (before line after : string) :
  noByte "\" before → noByte "\" line → noByte "\" after →
  noByte "010" line →
  TrimSpace line = "" ∨ HasPrefix (TrimSpace line) "#" = true
    ∨ HasPrefix (TrimSpace line) "!" = true →
  ParseProperties (before +:+ String "010" (line +:+ String "010" after))
  = ParseProperties (before +:+ String "010" after).
Proof.
  intros Hb Hl Ha Hnl Hc. unfold ParseProperties.
  rewrite !splitLogicalLines_plain.
  - rewrite !Split_app_sep, (Split_noByte _ _ Hnl), !fmap_app. cbn [fmap list_fmap app].
    rewrite !parseLines_app. destruct (parseLines ∅ _) as [m|e]; [|done].
    cbn [mbind result_bind]. rewrite parseLines_cons, parseLine_comment by done.
    done.
  - apply noByte_app. split; [done|]. by apply noByte_cons.
  - apply noByte_app. split; [done|]. apply noByte_cons. split; [done|].
    apply noByte_app. split; [done|]. by apply noByte_cons.
Qed.

Lemma ParseProperties_comment_ignored_witness :
  ParseProperties ("a=1" +:+ String "010" ("# note" +:+ String "010" "b=2"))
  = ParseProperties ("a=1" +:+ String "010" "b=2").
Proof.
  apply ParseProperties_comment_ignored; try reflexivity. right. by left.
Defined.

(** X26: in a text without backslash, a last line [key = value] (or
    [key : value]) over ASCII text, not a comment, binds the trimmed key
    to the trimmed value on top of what the lines before it bind, and an
    error of the lines before it is returned unchanged. *)
Theorem ParseProperties_last_binding (text line key val : string) (sep : ascii) :
  noByte "\" text → noByte "\" line → noByte "010" line →
  TrimSpace line = key +:+ String sep val →
  isKeySeparator sep = true →
  IndexFunc isKeySeparator key = None →
  HasPrefix (TrimSpace line) "#" = false →
  HasPrefix (TrimSpace line) "!" = false →
  isASCII (TrimSpace key) → isASCII (TrimSpace val) →
  ParseProperties (text +:+ String "010" line) =
    match ParseProperties text with
    | Ok m => Ok (<[TrimSpace key := TrimSpace val]> m)
    | Err e => Err e
    end.
Proof.
  intros Ht Hl Hnl Hline Hsep Hkey Hhash Hbang Hak Hav. unfold ParseProperties.
  rewrite !splitLogicalLines_plain; [|done|].
  - rewrite Split_app_sep, (Split_noByte _ _ Hnl), fmap_app. cbn [fmap list_fmap].
    rewrite parseLines_app. destruct (parseLines ∅ _) as [m|e]; [|done].
    cbn [mbind result_bind].
    rewrite parseLines_cons, (parseLine_binding m line key sep val) by done.
    done.
  - apply noByte_app. split; [done|]. by apply noByte_cons.
Qed.

Lemma ParseProperties_last_binding_witness :
  ParseProperties ("port=1" +:+ String "010" " port : 8080 ") =
    match ParseProperties "port=1" with
    | Ok m => Ok (<[TrimSpace "port " := TrimSpace " 8080"]> m)
    | Err e => Err e
    end.
Proof.
  apply (ParseProperties_last_binding "port=1" " port : 8080 " "port " " 8080" ":");
    try reflexivity.
  - unfold isASCII. vm_compute. repeat constructor.
  - unfold isASCII. vm_compute. repeat constructor.
Defined.

(** ** Merging a tree twice *)

Section merge_twice_facts.
Implicit Types (dst src m : tree) (v : value).

Lemma mergeInto_empty_l m : mergeInto ∅ (VMap m) = m.
Proof.
  apply map_eq. intros k. rewrite mergeInto_lookup, lookup_empty.
  by destruct (m !! k).
Qed.

Lemma mergeInto_twice v :
  plainTree v → ∀ dst, mergeInto (mergeInto dst v) v = mergeInto dst v.
Proof.
  induction 1 as [m Hplain IH|v Hv]; intros dst.
  - apply map_eq. intros k. rewrite !mergeInto_lookup.
    destruct (m !! k) as [x|] eqn:Hk; [|done]. f_equal.
    specialize (IH k x Hk). specialize (Hplain k x Hk).
    destruct (toStringMap x) as [mx|] eqn:Hx.
    + assert (Hmap : x = VMap mx).
      { inversion Hplain as [m' _ Hm'|v' Hv']; subst; [|congruence].
        simpl in Hx. congruence. }
      assert (Hself : mergeInto mx x = mx).
      { assert (H0 : mergeInto ∅ x = mx)
          by (rewrite (mergeInto_view ∅ x mx Hx); apply mergeInto_empty_l).
        rewrite <- H0 at 1. rewrite IH. exact H0. }
      unfold mergedAt at 1. rewrite Hx.
      destruct (dst !! k) as [e|] eqn:He; cbn [mergedAt].
      * rewrite Hx. destruct (toStringMap e) as [m1|] eqn:Hm1.
        -- cbn [toStringMap]. by rewrite IH.
        -- by rewrite Hx, Hself.
      * by rewrite Hx, Hself.
    + unfold mergedAt. rewrite Hx.
      by destruct (dst !! k) as [e|]; [destruct (toStringMap e)|]; rewrite Hx.
  - by destruct v.
Qed.

End merge_twice_facts.

(** X27: merging the same tree a second time changes nothing, provided
    its maps are all [map[string]any]: the result of [Merge(dst, src)] is
    a fixed point of merging [src] again. *)
Theorem Merge_again (dst src t : tree) :
  plainTree (VMap src) →
  Merge dst src = Ok t →
  Merge t src = Ok t.
Proof.
  intros Hsrc Hm. unfold Merge in *. injection Hm as <-. f_equal.
  exact (mergeInto_twice _ Hsrc dst).
Qed.

Lemma Merge_again_witness :
  Merge {[ "db" := VMap {[ "host" := VString "b"; "port" := VInt 1 ]} ]}
        {[ "db" := VMap {[ "host" := VString "b" ]} ]}
  = Ok {[ "db" := VMap {[ "host" := VString "b"; "port" := VInt 1 ]} ]}.
Proof.
  apply (Merge_again {[ "db" := VMap {[ "port" := VInt 1 ]} ]}).
  - apply plainTree_map. intros k v [<- <-]%lookup_singleton_Some.
    apply plainTree_map. intros k v [<- <-]%lookup_singleton_Some.
    by apply plainTree_leaf.
  - vm_compute. reflexivity.
Defined.

(** ** Placeholder expansion, one placeholder after the other *)

Section expand_step_facts.
Implicit Types (lookup : lookupFn) (rest res pre post body : string).

Lemma expandLoop_fuel fuel1 fuel2 rest res lookup :
  (String.length rest < fuel1)%nat → (String.length rest < fuel2)%nat →
  expandLoop fuel1 rest res lookup = expandLoop fuel2 rest res lookup.
Proof.
  revert fuel2 rest res. induction fuel1 as [|fuel1 IH]; intros fuel2 rest res H1 H2; [lia|].
  destruct fuel2 as [|fuel2]; [lia|]. cbn [expandLoop].
  destruct (Index rest "${") as [idx|] eqn:Hidx; [|done].
  destruct (Index (drop (idx + 2) rest) "}") as [e|] eqn:He; [|done].
  destruct (expandSinglePlaceholder _ lookup) as [q [expanded|err]]; [|done].
  rewrite (IH fuel2); [done|..];
    apply Index_bound in Hidx; rewrite !drop_length; simpl in Hidx; lia.
Qed.

Lemma expandLoop_acc fuel rest res lookup :
  expandLoop fuel rest res lookup =
    let '(q, r) := expandLoop fuel rest "" lookup in
    (q, match r with Ok out => Ok (res +:+ out) | Err e => Err e end).
Proof.
  revert rest res. induction fuel as [|fuel IH]; intros rest res; [done|].
  cbn [expandLoop].
  destruct (Index rest "${") as [idx|] eqn:Hidx; [|done].
  destruct (Index (drop (idx + 2) rest) "}") as [e|] eqn:He; [|done].
  destruct (expandSinglePlaceholder _ lookup) as [q [expanded|err]]; [|done].
  rewrite (IH _ ((res +:+ take idx rest) +:+ expanded)).
  rewrite (IH _ (("" +:+ take idx rest) +:+ expanded)).
  destruct (expandLoop fuel _ "" lookup) as [q' [out|err]]; [|done].
  change ("" +:+ take idx rest) with (take idx rest).
  by rewrite !app_assoc.
Qed.

Lemma Expand_is_loop input lookup :
  Expand input lookup = expandAllPlaceholders input lookup.
Proof.
  unfold Expand. destruct (decide (input = "")) as [->|Hne]; [done|].
  rewrite bool_decide_eq_false_2 by done. cbn [orb].
  destruct (Contains input "${") eqn:Hc; [done|]. cbn [negb].
  apply Contains_false in Hc. unfold expandAllPlaceholders. cbn [expandLoop].
  by rewrite Hc.
Qed.

Lemma expandAllPlaceholders_step lookup pre body post :
  Index pre "${" = None →
  noByte "}" body →
  expandAllPlaceholders (pre +:+ "${" +:+ body +:+ "}" +:+ post) lookup =
    match expandSinglePlaceholder body lookup with
    | (q, Err e) => (q, Err e)
    | (q, Ok value) =>
        let '(q', r) := expandAllPlaceholders post lookup in
        (q ++ q',
         match r with
         | Ok out => Ok (pre +:+ value +:+ out)
         | Err e => Err e
         end)
    end.
Proof.
  intros Hpre Hbody.
  set (input := pre +:+ "${" +:+ body +:+ "}" +:+ post).
  assert (Hopen : Index input "${" = Some (String.length pre))
    by by apply Index_open_first.
  assert (Hdrop : drop (String.length pre + 2) input = body +:+ String "}" post)
    by apply drop_app_length.
  assert (Hlen : String.length input
                 = (String.length pre + 2 + (String.length body + 1 + String.length post))%nat).
  { unfold input. rewrite !app_length. simpl. lia. }
  unfold expandAllPlaceholders at 1. cbn [expandLoop].
  rewrite Hopen, Hdrop, (Index_byte_app _ _ _ Hbody).
  rewrite take_app_length, (drop_app_length body (String "}" post) 1).
  assert (Htake : take (String.length pre) input = pre) by apply take_app_length.
  rewrite Htake.
  change (drop 1 (String "}" post)) with post.
  destruct (expandSinglePlaceholder body lookup) as [q [value|err]]; [|done].
  rewrite (expandLoop_fuel _ (S (String.length post))) by lia.
  rewrite expandLoop_acc. fold (expandAllPlaceholders post lookup).
  destruct (expandAllPlaceholders post lookup) as [q' [out|err]]; [|done].
  change ("" +:+ pre) with pre. by rewrite app_assoc.
Qed.

End expand_step_facts.

(** X28: [Expand] works through the placeholders from left to right and
    does not scan what it substitutes: on a text that starts with [pre]
    (free of openings), then a placeholder whose body has no closing
    brace, the result is [pre], the value of that placeholder and the
    expansion of the rest, the lookups being those of the placeholder
    followed by those of the rest; an error of the placeholder or of the
    rest is the error of the whole. *)
Theorem Expand_left_to_right (lookup : lookupFn) (pre body post : string) :
  Index pre "${" = None →
  noByte "}" body →
  Expand (pre +:+ "${" +:+ body +:+ "}" +:+ post) lookup =
    match expandSinglePlaceholder body lookup with
    | (q, Err e) => (q, Err e)
    | (q, Ok value) =>
        let '(q', r) := Expand post lookup in
        (q ++ q',
         match r with
         | Ok out => Ok (pre +:+ value +:+ out)
         | Err e => Err e
         end)
    end.
Proof.
  intros Hpre Hbody. rewrite !Expand_is_loop.
  by apply expandAllPlaceholders_step.
Qed.

Lemma Expand_left_to_right_witness :
  Expand ("a=" +:+ "${" +:+ "env.A|${x" +:+ "}" +:+ ";b=${env.B|2}")
         Examples.noEnv
  = (["A"; "B"], Ok "a=${x;b=2").
Proof.
  rewrite (Expand_left_to_right Examples.noEnv "a=" "env.A|${x" ";b=${env.B|2}");
    reflexivity.
Defined.

(** ** The HTTP source *)

Section http_source_facts.

Lemma httpKeepsFormat_built url hs opt :
  httpKeepsFormat opt →
  hsURL hs = TrimSpace url ∧ hsFormat hs = "" →
  hsURL (opt hs) = TrimSpace url ∧ hsFormat (opt hs) = "".
Proof.
  intros [[method ->]|[(key & val & ->)|[name ->]]] [Hu Hf].
  - unfold WithHTTPSourceMethod. by case_decide.
  - done.
  - unfold WithHTTPSourceName. by case_decide.
Qed.

Lemma NewHTTPSource_built url opts :
  Forall httpKeepsFormat opts →
  hsURL (NewHTTPSource url opts) = TrimSpace url
  ∧ hsFormat (NewHTTPSource url opts) = "".
Proof.
  intros Hopts. unfold NewHTTPSource.
  set (hs0 := {| hsURL := TrimSpace url; hsMethod := "GET"; hsHeaders := ∅;
                 hsFormat := ""; hsName := "" |}).
  assert (hsURL hs0 = TrimSpace url ∧ hsFormat hs0 = "") as H0 by done.
  revert H0. generalize hs0. clear hs0.
  induction Hopts as [|opt opts Hopt _ IH]; intros hs Hhs.
  - simpl. by case_decide.
  - simpl. apply IH. by apply httpKeepsFormat_built.
Qed.

Lemma detectFormatFromContentType_nonempty ct f :
  detectFormatFromContentType ct = Some f → f ≠ "".
Proof.
  unfold detectFormatFromContentType. repeat case_decide; by intros [= <-].
Qed.

End http_source_facts.

(** X29: how an HTTP source without explicit format finds its format,
    once the request succeeded with a 2xx status and the body was read:
    a known extension at the end of the URL decides, in any letter case
    and whatever the [Content-Type]; when the URL gives no format, the
    [Content-Type] decides, and when it gives none either the load fails
    with the [cannot detect format] error. *)
Theorem HTTPSourceLoad_format_inference
    (parseRequestURI : string → option error)
    (newRequest : string → string → option error)
    (url : string) (opts : list HTTPSourceOption)
    (resp : httpResponse) (body : bytes) :
  Forall httpKeepsFormat opts →
  let hs := NewHTTPSource url opts in
  TrimSpace url ≠ "" →
  parseRequestURI (TrimSpace url) = None →
  newRequest (hsMethod hs) (TrimSpace url) = None →
  200 ≤ StatusCode resp < 300 →
  Body resp = Ok body →
  let load := HTTPSourceLoad parseRequestURI newRequest hs (Ok resp) in
  (∀ base ext,
     TrimSpace url = base +:+ "." +:+ ext →
     ToLower ext ∈ ["json"; "yaml"; "yml"; "toml"] →
     load = Ok (body, {| Format := normalizeFormat (ToLower ext);
                         Source := hsName hs |}))
  ∧ (∀ e,
     detectFormatFromPath (TrimSpace url) = Err e →
     load =
       match detectFormatFromContentType (ContentType resp) with
       | Some f => Ok (body, {| Format := f; Source := hsName hs |})
       | None =>
           Err (Errorf
                  "HTTPSource: cannot detect format from url/content-type (url=%q)"
                  [TrimSpace url] None)
       end).
Proof.
  intros Hopts hs Hurl Hparse Hreq Hstatus Hbody load.
  destruct (NewHTTPSource_built url opts Hopts) as [Hu Hf]. fold hs in Hu, Hf.
  assert (Hload : load =
    let format :=
      match detectFormatFromPath (TrimSpace url) with
      | Ok f => f
      | Err _ =>
          if decide (ContentType resp ≠ "") then
            match detectFormatFromContentType (ContentType resp) with
            | Some f => f
            | None => ""
            end
          else ""
      end in
    if decide (format = "") then
      Err (Errorf "HTTPSource: cannot detect format from url/content-type (url=%q)"
             [TrimSpace url] None)
    else Ok (body, {| Format := format; Source := hsName hs |})).
  { unfold load, HTTPSourceLoad. rewrite Hu, Hf, Hparse, Hreq, Hbody.
    rewrite decide_False by done.
    destruct (Z.ltb_spec (StatusCode resp) 200); [lia|].
    destruct (Z.leb_spec 300 (StatusCode resp)); [lia|]. done. }
  rewrite Hload. cbv zeta. split.
  - intros base ext Hext Htag. rewrite Hext.
    rewrite (detectFormatFromPath_ext base ext (ToLower ext) eq_refl Htag).
    rewrite decide_False; [done|].
    set_unfold in Htag. by destruct Htag as [->|[->|[->|[->|[]]]]].
  - intros e ->. case_decide as Hct.
    + destruct (detectFormatFromContentType (ContentType resp)) as [f|] eqn:Hd.
      * by rewrite decide_False by by eapply detectFormatFromContentType_nonempty.
      * by rewrite decide_True.
    + rewrite Hct. by rewrite decide_True.
Qed.

Lemma HTTPSourceLoad_format_inference_witness :
  HTTPSourceLoad (λ _, None) (λ _ _, None)
    (NewHTTPSource " http://cfg.local/app.YML " [WithHTTPSourceHeader "X-Token" "t"])
    (Ok {| StatusCode := 200; Body := Ok []; ContentType := "application/json" |})
  = Ok ([], {| Format := normalizeFormat (ToLower "YML");
               Source := "http://cfg.local/app.YML" |}).
Proof.
  refine (proj1 (HTTPSourceLoad_format_inference (λ _, None) (λ _ _, None)
            " http://cfg.local/app.YML " [WithHTTPSourceHeader "X-Token" "t"]
            {| StatusCode := 200; Body := Ok []; ContentType := "application/json" |}
            [] _ _ eq_refl eq_refl _ eq_refl) "http://cfg.local/app" "YML" eq_refl _).
  - apply Forall_cons. split; [|by apply Forall_nil]. right. left. by eexists _, _.
  - discriminate.
  - simpl. lia.
  - set_solver.
Defined.

(** ** Instances *)

Lemma splitEnvPair_round_trip_witness :
  splitEnvPair ("URL" +:+ "=" +:+ "a=b") = Some ("URL", "a=b").
Proof.
  apply (proj2 (splitEnvPair_round_trip "" "URL" "a=b")); [discriminate|reflexivity].
Defined.


Lemma defaultEnvValueParser_results_witness : - 2 ^ 63 ≤ 3306 < 2 ^ 63.
Proof.
  pose proof (defaultEnvValueParser_results sampleParseFloat sampleParseDuration
                " 3306 ") as (_ & _ & _ & Hint).
  apply Hint. reflexivity.
Defined.

Lemma unescape_plain_and_length_witness :
  Properties.unescape [97; 61; 98] = Ok [97; 61; 98].
Proof.
  apply (proj1 (unescape_plain_and_length [97; 61; 98])).
  apply Forall_cons. split; [by split|].
  apply Forall_cons. split; [by split|].
  apply Forall_cons. split; [by split|]. by apply Forall_nil.
Defined.

Lemma splitKeyValue_first_separator_witness :
  splitKeyValue "host : a=b" = (TrimSpace "host ", TrimSpace " a=b", true).
Proof.
  apply (proj1 (splitKeyValue_first_separator "host : a=b") "host " ":"%char " a=b");
    reflexivity.
Defined.

Lemma ApolloWatcher_notifies_on_change_witness :
  ApolloWatcherStart ([Ok [Byte.x61]; Err (External "timeout")] ++ [Ok [Byte.x62]])
  = {| lastContent := [Byte.x62];
       notified := notified (ApolloWatcherStart [Ok [Byte.x61]; Err (External "timeout")])
                   ++ [[Byte.x62]] |}.
Proof.
  pose proof (ApolloWatcher_notifies_on_change
                [Ok [Byte.x61]; Err (External "timeout")] [] [Byte.x62])
    as (_ & _ & Hnew & _).
  apply Hnew. cbv. discriminate.
Defined.
